(** * Band III Vocab Master: the card-matching engine of [App] and the
      hint service [getVocabHint], embedded and verified.

    The React component [App] keeps its state in hooks ([useState]); here the
    hooks are the fields of one record [World], every handler is a function on
    [World], and the callbacks that the handlers hand to [setTimeout] and
    [fetch] are kept in the world as data until an event runs them.  State
    updaters of the form [setGameState(prev => ...)] read the world at the
    time they run; values captured by a closure ([cards], [newFlipped],
    [isMuted]) are stored in the pending callback.  Numbers are integers
    ([Z]): scores, seconds and card indices never leave the range in which
    JavaScript numbers are exact.

    The hint banner ([hint], [isLoadingHint], [showHint]) reads the game
    state but writes none of the hooks modelled here; of the hint path only
    [getVocabHint] is embedded, as a computation over the requests sent and
    the lines logged. *)

From Stdlib Require Import ZArith String Ascii.
From stdpp Require Import base tactics option list.
From stdpp Require Import strings.

Local Open Scope string_scope.
Local Open Scope list_scope.
Local Open Scope Z_scope.

(** ** Strings the way the code uses them *)

(** [s.includes(sub)] of JavaScript. *)
Fixpoint includes (sub s : string) : bool :=
  String.prefix sub s ||
  match s with
  | EmptyString => false
  | String _ s' => includes sub s'
  end.

(** A string is falsy exactly when it is empty. *)
Definition truthy (s : string) : bool :=
  match s with EmptyString => false | _ => true end.

(** ** Data model ([./types], [./vocabulary]) *)

(** Modelled from the spec: the interface VocabItem of [./types], which is not
    among the sources.  The fields are the ones [App] reads ([id], [entry],
    [meaningArabic], [meaningEnglish], [pos]); identifiers are taken to be
    strings, as they are spliced into [uniqueId]. *)
Record VocabItem := mkVocabItem {
  id : string;
  entry : string;
  meaningArabic : string;
  meaningEnglish : string;
  pos : string
}.

Inductive CardType := term | match_.

Global Instance CardType_eq_dec : EqDecision CardType.
Proof. solve_decision. Defined.

(** The object literals pushed by [initGame]: a term card has no [isArabic]
    property, a match card has one. *)
Record CardData := mkCard {
  vocabId : string;
  uniqueId : string;
  content : string;
  isArabic : option bool;
  type : CardType
}.

(** Modelled from the spec: the enum GameMode of [./types] (missing).  [App]
    only ever compares the mode with [EnglishToArabic]. *)
Inductive GameMode := EnglishToArabic | ArabicToEnglish.

Global Instance GameMode_eq_dec : EqDecision GameMode.
Proof. solve_decision. Defined.

(** Modelled from the spec: the enums GameList and Difficulty of [./types]
    (missing) are string enums, their members are the values of the two
    select boxes.  The spec names the difficulty settings Easy, Medium and
    Hard; the code only asks which of these words the label includes. *)
Definition GameList := string.
Definition Difficulty := string.
Definition Difficulty_Easy : Difficulty := "Easy".
Definition Difficulty_Medium : Difficulty := "Medium".
Definition Difficulty_Hard : Difficulty := "Hard".

Record GameState := mkGameState {
  studentName : string;
  studentClass : string;
  score : Z;
  timer : Z;
  isGameStarted : bool;
  isGameOver : bool;
  matchedPairs : list string;
  selectedList : GameList;
  mode : GameMode;
  difficulty : Difficulty
}.

(** ** Deck builder (the first half of [initGame]) *)

(** [difficulty.includes('Hard') ? 20 : difficulty.includes('Medium') ? 15 : 10] *)
Definition wordCount (d : Difficulty) : nat :=
  if includes "Hard" d then 20%nat
  else if includes "Medium" d then 15%nat
  else 10%nat.

Definition termCard (item : VocabItem) : CardData :=
  {| vocabId := id item;
     uniqueId := id item +:+ "-t";
     content := entry item;
     isArabic := None;
     type := term |}.

Definition matchCard (m : GameMode) (item : VocabItem) : CardData :=
  {| vocabId := id item;
     uniqueId := id item +:+ "-m";
     content := if decide (m = EnglishToArabic)
                then meaningArabic item else meaningEnglish item;
     isArabic := Some (bool_decide (m = EnglishToArabic));
     type := match_ |}.

(** [pool.forEach(item => { gameCards.push(term); gameCards.push(match) })] *)
Fixpoint gameCards (m : GameMode) (pool : list VocabItem) : list CardData :=
  match pool with
  | [] => []
  | item :: rest => termCard item :: matchCard m item :: gameCards m rest
  end.

(** [arr.sort(() => Math.random() - 0.5)] rearranges [arr] in an order that
    depends on the random draws.  The draws of one call are represented by
    the rearrangement they produce: a function that returns a permutation of
    its argument. *)
Definition Shuffle (A : Type) := list A → list A.

Definition fair {A} (sh : Shuffle A) : Prop := ∀ l, sh l ≡ₚ l.

(** [[...VOCABULARY[list]].sort(...).slice(0, wordCount)] followed by the
    card construction and the second sort. *)
Definition buildDeck (sortPool : Shuffle VocabItem) (sortCards : Shuffle CardData)
    (vocabulary : list VocabItem) (d : Difficulty) (m : GameMode) : list CardData :=
  let pool := take (wordCount d) (sortPool vocabulary) in
  sortCards (gameCards m pool).

(** Number of cards of a deck that carry vocab id [v], and of those the ones
    of a given type. *)
Definition occurrences (v : string) (deck : list CardData) : nat :=
  length (filter (λ c, vocabId c = v) deck).

Definition occurrences_of (t : CardType) (v : string) (deck : list CardData) : nat :=
  length (filter (λ c, vocabId c = v ∧ type c = t) deck).

(** ** The component state of [App] *)

Inductive SubmitStatus := idle | submitting | success | error.

Global Instance SubmitStatus_eq_dec : EqDecision SubmitStatus.
Proof. solve_decision. Defined.

(** One entry per call of [playFlip], [playMatch] and [playError]; what the
    oscillators of [useAudio] do with it is outside the model. *)
Inductive Sound := FlipSound | MatchSound | ErrorSound.

(** The two arrow functions that [handleCardClick] passes to [setTimeout],
    with the variables they close over. *)
Inductive Resolution :=
| MatchResolution (muted : bool) (deck : list CardData) (newFlipped : list Z)
| MismatchResolution (muted : bool).

(** The JSON body of the POST made by [submitResultToSheet]. *)
Record ResultRow := mkResultRow {
  row_studentName : string;
  row_studentClass : string;
  row_score : Z;
  row_timer : Z;
  row_selectedList : GameList;
  row_difficulty : Difficulty;
  row_mode : GameMode
}.

Record World := mkWorld {
  gameState : GameState;
  isMuted : bool;
  cards : list CardData;
  flippedCards : list Z;
  submitStatus : SubmitStatus;
  (** callbacks given to [setTimeout] that have not run yet *)
  timeouts : list Resolution;
  (** POST requests whose promise has not settled yet *)
  fetches : nat;
  (** trace of the sounds played *)
  audio : list Sound;
  (** trace of the bodies POSTed to the sheet *)
  posted : list ResultRow
}.

(** A handler either returns, or throws a TypeError on reading a property of
    [undefined]; state updates made before the throw stay in place. *)
Inductive Outcome := Done (w : World) | TypeError (w : World).

Definition world_of (o : Outcome) : World :=
  match o with Done w | TypeError w => w end.

Definition faulted (o : Outcome) : bool :=
  match o with Done _ => false | TypeError _ => true end.

(** *** State setters *)

Definition setGameState (f : GameState → GameState) (w : World) : World :=
  mkWorld (f (gameState w)) (isMuted w) (cards w) (flippedCards w)
          (submitStatus w) (timeouts w) (fetches w) (audio w) (posted w).

Definition setIsMuted (b : bool) (w : World) : World :=
  mkWorld (gameState w) b (cards w) (flippedCards w)
          (submitStatus w) (timeouts w) (fetches w) (audio w) (posted w).

Definition setCards (cs : list CardData) (w : World) : World :=
  mkWorld (gameState w) (isMuted w) cs (flippedCards w)
          (submitStatus w) (timeouts w) (fetches w) (audio w) (posted w).

Definition setFlippedCards (fl : list Z) (w : World) : World :=
  mkWorld (gameState w) (isMuted w) (cards w) fl
          (submitStatus w) (timeouts w) (fetches w) (audio w) (posted w).

Definition setSubmitStatus (s : SubmitStatus) (w : World) : World :=
  mkWorld (gameState w) (isMuted w) (cards w) (flippedCards w)
          s (timeouts w) (fetches w) (audio w) (posted w).

Definition setTimeouts (ts : list Resolution) (w : World) : World :=
  mkWorld (gameState w) (isMuted w) (cards w) (flippedCards w)
          (submitStatus w) ts (fetches w) (audio w) (posted w).

Definition setTimeout (cb : Resolution) (w : World) : World :=
  setTimeouts (timeouts w ++ [cb]) w.

Definition play (s : Sound) (w : World) : World :=
  mkWorld (gameState w) (isMuted w) (cards w) (flippedCards w)
          (submitStatus w) (timeouts w) (fetches w) (audio w ++ [s]) (posted w).

(** [if (!muted) playX()] *)
Definition unlessMuted (muted : bool) (s : Sound) (w : World) : World :=
  if muted then w else play s w.

Definition fetchPost (row : ResultRow) (w : World) : World :=
  mkWorld (gameState w) (isMuted w) (cards w) (flippedCards w)
          (submitStatus w) (timeouts w) (S (fetches w)) (audio w)
          (posted w ++ [row]).

Definition fetchDone (w : World) : World :=
  mkWorld (gameState w) (isMuted w) (cards w) (flippedCards w)
          (submitStatus w) (timeouts w) (pred (fetches w)) (audio w) (posted w).

(** *** Updaters of [gameState] (the object spreads [{ ...prev, ... }]) *)

Definition withSession (sc tm : Z) (started over : bool) (mp : list string)
    (g : GameState) : GameState :=
  mkGameState (studentName g) (studentClass g) sc tm started over mp
              (selectedList g) (mode g) (difficulty g).

Definition withTimer (tm : Z) (g : GameState) : GameState :=
  withSession (score g) tm (isGameStarted g) (isGameOver g) (matchedPairs g) g.

Definition withStarted (b : bool) (g : GameState) : GameState :=
  withSession (score g) (timer g) b (isGameOver g) (matchedPairs g) g.

Definition withMatch (mp : list string) (sc : Z) (over : bool)
    (g : GameState) : GameState :=
  withSession sc (timer g) (isGameStarted g) over mp g.

Definition withStudentName (s : string) (g : GameState) : GameState :=
  mkGameState s (studentClass g) (score g) (timer g) (isGameStarted g)
              (isGameOver g) (matchedPairs g) (selectedList g) (mode g)
              (difficulty g).

Definition withStudentClass (s : string) (g : GameState) : GameState :=
  mkGameState (studentName g) s (score g) (timer g) (isGameStarted g)
              (isGameOver g) (matchedPairs g) (selectedList g) (mode g)
              (difficulty g).

Definition withDifficulty (d : Difficulty) (g : GameState) : GameState :=
  mkGameState (studentName g) (studentClass g) (score g) (timer g)
              (isGameStarted g) (isGameOver g) (matchedPairs g)
              (selectedList g) (mode g) d.

Definition withSelectedList (l : GameList) (g : GameState) : GameState :=
  mkGameState (studentName g) (studentClass g) (score g) (timer g)
              (isGameStarted g) (isGameOver g) (matchedPairs g)
              l (mode g) (difficulty g).

(** [cards[index]]: the element for an index inside the array, [undefined]
    for any other number. *)
Definition card_at (deck : list CardData) (index : Z) : option CardData :=
  if decide (0 ≤ index) then deck !! Z.to_nat index else None.


(** ** The hint service ([geminiService]) *)

(** What the page and the build put at the disposal of [getVocabHint]:
    [window.process?.env?.API_KEY] and [process.env.API_KEY], each a string
    or [undefined].  The module of [App] installs [window.process = { env: {} }]
    when there is none, so [process.env] is an object. *)
Record Env := mkEnv {
  window_API_KEY : option string;
  process_API_KEY : option string
}.

(** Truthiness of a value that is a string or [undefined]. *)
Definition truthy_opt (v : option string) : bool :=
  match v with Some s => truthy s | None => false end.

(** [a || b] *)
Definition or_else (a b : option string) : option string :=
  if truthy_opt a then a else b.

Record Request := mkRequest {
  req_apiKey : string;
  req_model : string;
  req_contents : string;
  req_thinkingBudget : Z
}.

(** The outcome of [ai.models.generateContent]: the promise is rejected, or
    fulfilled with a response whose [text] is a string or [undefined]. *)
Inductive Reply := Rejects (err : string) | Responds (text : option string).

(** The library [@google/genai], as far as the caller can see it: the
    constructor may throw, the call goes to the network and gets a reply. *)
Record GenAI := mkGenAI {
  construct : string → option string;
  reply : Request → Reply
}.

Inductive LogEntry := Warn (msg : string) | Error (msg err : string).

(** The outside world of the service: requests sent, lines logged. *)
Record Io := mkIo {
  requests : list Request;
  console : list LogEntry
}.

(** Statements either complete normally or throw; an [async] function
    fulfils its promise with the value returned and rejects it with the
    error thrown. *)
Inductive Completion (A : Type) := Returns (a : A) | Throws (err : string).
Global Arguments Returns {A} a.
Global Arguments Throws {A} err.

Definition Eff (A : Type) : Type := Io → Completion A * Io.

Global Instance Eff_ret : MRet Eff := λ A a io, (Returns a, io).

Global Instance Eff_bind : MBind Eff := λ A B f m io,
  match m io with
  | (Returns a, io') => f a io'
  | (Throws err, io') => (Throws err, io')
  end.

Definition tryCatch {A} (body : Eff A) (handler : string → Eff A) : Eff A :=
  λ io, match body io with
        | (Returns a, io') => (Returns a, io')
        | (Throws err, io') => handler err io'
        end.

Definition console_warn (msg : string) : Eff unit :=
  λ io, (Returns (), mkIo (requests io) (console io ++ [Warn msg])).

Definition console_error (msg err : string) : Eff unit :=
  λ io, (Returns (), mkIo (requests io) (console io ++ [Error msg err])).

(** [new GoogleGenAI({ apiKey })]; the client is represented by its key. *)
Definition newGoogleGenAI (lib : GenAI) (apiKey : string) : Eff string :=
  λ io, match construct lib apiKey with
        | Some err => (Throws err, io)
        | None => (Returns apiKey, io)
        end.

(** [await ai.models.generateContent({ model, contents, config })]: the
    request leaves the page, then the reply decides. *)
Definition generateContent (lib : GenAI) (client model contents : string)
    (budget : Z) : Eff (option string) :=
  λ io, let r := mkRequest client model contents budget in
        let io' := mkIo (requests io ++ [r]) (console io) in
        match reply lib r with
        | Rejects err => (Throws err, io')
        | Responds text => (Returns text, io')
        end.

Definition quote : string := String (ascii_of_nat 34) EmptyString.

(** The template literal passed as [contents]. *)
Definition prompt (word pos : string) : string :=
  "Provide a very short, simple example sentence for the English word "
  +:+ quote +:+ word +:+ quote +:+ " (part of speech: " +:+ pos
  +:+ "). Keep it under 15 words.".

(** [response.text || fallback] *)
Definition text_or (text : option string) (fallback : string) : string :=
  match text with
  | Some s => if truthy s then s else fallback
  | None => fallback
  end.

(** The module imported by [App]. *)
Module GeminiService.

Definition noKeyText : string := "Complete the match to learn this word!".
Definition noTextText : string := "Match the terms to learn more.".
Definition failureText : string := "Try matching the terms!".

Definition lookupKey (env : Env) : option string := process_API_KEY env.

Definition getVocabHint (env : Env) (lib : GenAI) (word pos : string) : Eff string :=
  let apiKey := lookupKey env in
  if negb (truthy_opt apiKey) then
    console_warn "API_KEY missing. Hints are disabled.";;
    mret noKeyText
  else
    tryCatch
      (ai ← newGoogleGenAI lib (default EmptyString apiKey);
       response ← generateContent lib ai "gemini-3-flash-preview"
                                  (prompt word pos) 0;
       mret (text_or response noTextText))
      (λ error,
         console_error "Gemini Hint Error:" error;;
         mret failureText).

End GeminiService.

(** The second copy of the module, the one that follows [index.tsx]. *)
Module GeminiServiceIndex.

Definition noKeyText : string := "Complete the match to learn this word!".
Definition noTextText : string := "Match the terms to learn more.".
Definition failureText : string := "Keep matching! You are doing great!".

(** [window.process?.env?.API_KEY || (typeof process !== 'undefined' ?
    process.env.API_KEY : '')] *)
Definition lookupKey (env : Env) : option string :=
  or_else (window_API_KEY env) (process_API_KEY env).

Definition getVocabHint (env : Env) (lib : GenAI) (word pos : string) : Eff string :=
  let apiKey := lookupKey env in
  if negb (truthy_opt apiKey) then
    console_warn "Gemini API Key is not configured. Hints are disabled.";;
    mret noKeyText
  else
    tryCatch
      (ai ← newGoogleGenAI lib (default EmptyString apiKey);
       response ← generateContent lib ai "gemini-3-flash-preview"
                                  (prompt word pos) 0;
       mret (text_or response noTextText))
      (λ error,
         console_error "Gemini Hint Error:" error;;
         mret failureText).

End GeminiServiceIndex.

(** No usable key: the lookup gives [undefined] or the empty string. *)
Definition unconfigured (key : option string) : Prop := truthy_opt key = false.

(** The call behind the hint fails: the constructor throws or the request
    is rejected. *)
Definition service_fails (lib : GenAI) (key word pos : string) : Prop :=
  is_Some (construct lib key) ∨
  ∃ err, reply lib (mkRequest key "gemini-3-flash-preview" (prompt word pos) 0)
         = Rejects err.

Section App.

(** The table [VOCABULARY] of [./vocabulary] and the enum member
    [GameList.ListA] are not among the sources; the component is verified for
    every table and every initial list. *)
Variable VOCABULARY : GameList → list VocabItem.
Variable ListA : GameList.

(** The arguments of the [useState] calls. *)
Definition initialWorld : World :=
  {| gameState :=
       {| studentName := ""; studentClass := ""; score := 0; timer := 0;
          isGameStarted := false; isGameOver := false; matchedPairs := [];
          selectedList := ListA; mode := EnglishToArabic;
          difficulty := Difficulty_Easy |};
     isMuted := false; cards := []; flippedCards := [];
     submitStatus := idle; timeouts := []; fetches := 0%nat;
     audio := []; posted := [] |}.

(** *** [submitResultToSheet] and the effect on [isGameOver] *)

Definition resultRow (g : GameState) : ResultRow :=
  {| row_studentName := studentName g; row_studentClass := studentClass g;
     row_score := score g; row_timer := timer g;
     row_selectedList := selectedList g; row_difficulty := difficulty g;
     row_mode := mode g |}.

(** Up to the [await]: the guard, [setSubmitStatus('submitting')] and the
    call of [fetch]. *)
Definition submitResultToSheet (w : World) : World :=
  if bool_decide (submitStatus w = submitting ∨ submitStatus w = success)
  then w
  else fetchPost (resultRow (gameState w)) (setSubmitStatus submitting w).

(** After the [await]: the promise of [fetch] is fulfilled ([ok]) or
    rejected. *)
Definition fetchSettled (ok : bool) (w : World) : World :=
  setSubmitStatus (if ok then success else error) (fetchDone w).

(** [useEffect(() => { if (gameState.isGameOver) submitResultToSheet(); },
    [gameState.isGameOver])] *)
Definition overEffect (w : World) : World :=
  if isGameOver (gameState w) then submitResultToSheet w else w.

(** After a render React runs the effect when its dependency has changed. *)
Definition commit (before after : World) : World :=
  if bool_decide (isGameOver (gameState before) = isGameOver (gameState after))
  then after else overEffect after.

(** *** [initGame]

    The statements of [initGame] that follow its first one, the call of
    [initAudio].  That call touches the ref of [useAudio] only, which is no
    part of [World]; it can throw, and then none of the statements below
    runs and the world stays as it is.  The handler with the call at its
    head is [initGameWithAudio], in the part on the sound hook. *)

Definition initGame (sortPool : Shuffle VocabItem) (sortCards : Shuffle CardData)
    (w : World) : World :=
  let g := gameState w in
  let w := setSubmitStatus idle w in
  let deck := buildDeck sortPool sortCards (VOCABULARY (selectedList g))
                        (difficulty g) (mode g) in
  let w := setCards deck w in
  let w := setFlippedCards [] w in
  setGameState (withSession 0 0 true false []) w.

(** *** [handleCardClick] *)

Definition handleCardClick (index : Z) (w : World) : Outcome :=
  if bool_decide (length (flippedCards w) = 2%nat)
     || bool_decide (index ∈ flippedCards w)
  then Done w
  else match card_at (cards w) index with
  | None => TypeError w
  | Some c =>
    if bool_decide (vocabId c ∈ matchedPairs (gameState w)) then Done w
    else
      let deck := cards w in
      let muted := isMuted w in
      let newFlipped := flippedCards w ++ [index] in
      let w := unlessMuted muted FlipSound w in
      let w := setFlippedCards newFlipped w in
      match newFlipped with
      | [first; second] =>
        match card_at deck first, card_at deck second with
        | Some c0, Some c1 =>
          if decide (vocabId c0 = vocabId c1)
          then Done (setTimeout (MatchResolution muted deck newFlipped) w)
          else Done (setTimeout (MismatchResolution muted) w)
        | _, _ => TypeError w
        end
      | _ => Done w
      end
  end.

(** *** The resolution callbacks *)

(** [newMatched.length === cards.length / 2]: the quotient is exact or ends
    in one half, so the comparison holds iff twice the left side is the
    length of the deck. *)
Definition allMatched (newMatched : list string) (deck : list CardData) : bool :=
  bool_decide ((2 * length newMatched)%nat = length deck).

Definition runResolution (cb : Resolution) (w : World) : Outcome :=
  match cb with
  | MatchResolution muted deck newFlipped =>
    let w := unlessMuted muted MatchSound w in
    match newFlipped !! 0%nat ≫= card_at deck with
    | None => TypeError w
    | Some c =>
      let w := setGameState (λ prev,
                 let newMatched := matchedPairs prev ++ [vocabId c] in
                 withMatch newMatched (score prev + 10)
                           (allMatched newMatched deck) prev) w in
      Done (setFlippedCards [] w)
    end
  | MismatchResolution muted =>
    Done (setFlippedCards [] (unlessMuted muted ErrorSound w))
  end.

(** *** Events

    [StartTraining] is a click on the start button in which [initAudio]
    returns; the two arguments are the outcomes of the two random sorts. *)

Inductive Event :=
| StartTraining (sortPool : Shuffle VocabItem) (sortCards : Shuffle CardData)
| CardClick (index : Z)
| TimeoutFires (k : nat)
| Tick
| ToggleMute
| NewChallenge
| TypeName (s : string)
| TypeClass (s : string)
| SelectDifficulty (d : Difficulty)
| SelectList (l : GameList)
| FetchSettles (ok : bool).

Definition handle (e : Event) (w : World) : Outcome :=
  match e with
  | StartTraining sp sc => Done (initGame sp sc w)
  | CardClick index => handleCardClick index w
  | TimeoutFires k =>
    match timeouts w !! k with
    | Some cb => runResolution cb (setTimeouts (delete k (timeouts w)) w)
    | None => Done w
    end
  | Tick => Done (setGameState (λ prev, withTimer (timer prev + 1) prev) w)
  | ToggleMute => Done (setIsMuted (negb (isMuted w)) w)
  | NewChallenge => Done (setGameState (withStarted false) w)
  | TypeName s => Done (setGameState (withStudentName s) w)
  | TypeClass s => Done (setGameState (withStudentClass s) w)
  | SelectDifficulty d => Done (setGameState (withDifficulty d) w)
  | SelectList l => Done (setGameState (withSelectedList l) w)
  | FetchSettles ok => Done (fetchSettled ok w)
  end.

(** One turn of the event loop: the handler, the render, the effects. *)
Definition dispatch (e : Event) (w : World) : World :=
  commit w (world_of (handle e w)).

Fixpoint run (es : list Event) (w : World) : World :=
  match es with
  | [] => w
  | e :: es => run es (dispatch e w)
  end.

(** The worlds a run goes through, the first one included. *)
Fixpoint trace (es : list Event) (w : World) : list World :=
  w :: match es with
       | [] => []
       | e :: es => trace es (dispatch e w)
       end.

(** *** What the rendered page lets happen

    The setup form is rendered while [!isGameStarted], the result page while
    [isGameStarted && isGameOver], the board otherwise.  The start button is
    disabled until both name and class are filled in; the result page has no
    header, hence no mute button.  The interval of the timer effect exists
    while the game is started and not over. *)
Definition onSetup (w : World) : Prop := isGameStarted (gameState w) = false.
Definition onResult (w : World) : Prop :=
  isGameStarted (gameState w) = true ∧ isGameOver (gameState w) = true.
Definition onBoard (w : World) : Prop :=
  isGameStarted (gameState w) = true ∧ isGameOver (gameState w) = false.

Definition enabled (e : Event) (w : World) : Prop :=
  match e with
  | StartTraining sp sc =>
      onSetup w ∧ studentName (gameState w) ≠ "" ∧
      studentClass (gameState w) ≠ "" ∧ fair sp ∧ fair sc
  | CardClick _ => onBoard w
  | TimeoutFires k => (k < length (timeouts w))%nat
  | Tick => onBoard w
  | ToggleMute => ¬ onResult w
  | NewChallenge => onResult w
  | TypeName _ | TypeClass _ | SelectDifficulty _ | SelectList _ => onSetup w
  | FetchSettles _ => (0 < fetches w)%nat
  end.

Inductive reachable : World → Prop :=
| reachable_mount : reachable initialWorld
| reachable_dispatch w e :
    reachable w → enabled e w → reachable (dispatch e w).

End App.

(** ** The invariant of the worlds reachable through the page *)

(** [cb] is the callback that [handleCardClick] schedules when the selection
    becomes [[first; second]] on [deck]. *)
Definition resolves (deck : list CardData) (first second : Z)
    (cb : Resolution) : Prop :=
  ∃ c0 c1, card_at deck first = Some c0 ∧ card_at deck second = Some c1 ∧
    if decide (vocabId c0 = vocabId c1)
    then ∃ muted, cb = MatchResolution muted deck [first; second]
    else ∃ muted, cb = MismatchResolution muted.

(** A callback is pending exactly while two cards are selected. *)
Definition pending_ok (w : World) : Prop :=
  match flippedCards w with
  | [] | [_] => timeouts w = []
  | [first; second] =>
      ∃ cb, timeouts w = [cb] ∧ resolves (cards w) first second cb
  | _ => False
  end.

Record Inv (w : World) : Prop := mkInv {
  inv_score :
    score (gameState w) = 10 * Z.of_nat (length (matchedPairs (gameState w)));
  inv_distinct : NoDup (matchedPairs (gameState w));
  inv_flipped : ∀ i, i ∈ flippedCards w →
    ∃ c, card_at (cards w) i = Some c ∧ vocabId c ∉ matchedPairs (gameState w);
  inv_pending : pending_ok w;
  inv_rest :
    isGameStarted (gameState w) = false ∨ isGameOver (gameState w) = true →
    flippedCards w = [];
  inv_over :
    (cards w = [] ∧ isGameOver (gameState w) = false ∧
     matchedPairs (gameState w) = []) ∨
    isGameOver (gameState w) = allMatched (matchedPairs (gameState w)) (cards w)
}.

(** The events of a running session: everything but the start button. *)
Definition in_session (e : Event) : Prop :=
  match e with StartTraining _ _ => False | _ => True end.


(** [e] runs a match callback: the timeout that fires holds one. *)
Definition confirms_match (e : Event) (w : World) : Prop :=
  ∃ k muted deck newFlipped,
    e = TimeoutFires k ∧
    timeouts w !! k = Some (MatchResolution muted deck newFlipped).

(** ** The world without the mute button and the loudspeaker *)

Definition unmuted (cb : Resolution) : Resolution :=
  match cb with
  | MatchResolution _ deck newFlipped => MatchResolution false deck newFlipped
  | MismatchResolution _ => MismatchResolution false
  end.

(** Everything but [isMuted], the sounds played, and the copies of [isMuted]
    captured by the pending callbacks. *)
Definition silent (w : World) : World :=
  mkWorld (gameState w) false (cards w) (flippedCards w) (submitStatus w)
          (unmuted <$> timeouts w) (fetches w) [] (posted w).

(** What the claims on the game speak about. *)
Definition game_view (w : World) :
    Z * Z * list string * list Z * list CardData * bool :=
  (score (gameState w), timer (gameState w), matchedPairs (gameState w),
   flippedCards w, cards w, isGameOver (gameState w)).

(** ** Runs and sample data *)

(** Every event of the list is possible when its turn comes. *)
Fixpoint playable (VOCABULARY : GameList → list VocabItem) (es : list Event)
    (w : World) : Prop :=
  match es with
  | [] => True
  | e :: es => enabled e w ∧ playable VOCABULARY es (dispatch VOCABULARY e w)
  end.

(** The part of [enabled] that can be computed, and the part that cannot. *)
Definition enabledb (e : Event) (w : World) : bool :=
  let g := gameState w in
  match e with
  | StartTraining _ _ =>
      negb (isGameStarted g) && truthy (studentName g) && truthy (studentClass g)
  | CardClick _ | Tick => isGameStarted g && negb (isGameOver g)
  | TimeoutFires k => bool_decide (k < length (timeouts w))%nat
  | ToggleMute => negb (isGameStarted g && isGameOver g)
  | NewChallenge => isGameStarted g && isGameOver g
  | TypeName _ | TypeClass _ | SelectDifficulty _ | SelectList _ =>
      negb (isGameStarted g)
  | FetchSettles _ => bool_decide (0 < fetches w)%nat
  end.

Definition fair_event (e : Event) : Prop :=
  match e with
  | StartTraining sp sc => fair sp ∧ fair sc
  | _ => True
  end.

Fixpoint playableb (VOCABULARY : GameList → list VocabItem) (es : list Event)
    (w : World) : bool :=
  match es with
  | [] => true
  | e :: es => enabledb e w && playableb VOCABULARY es (dispatch VOCABULARY e w)
  end.

(** The draw that leaves the order as it is. *)
Definition keep {A} : Shuffle A := λ l, l.

Definition cat : VocabItem := mkVocabItem "v1" "cat" "qitta" "a small pet" "noun".
Definition dog : VocabItem := mkVocabItem "v2" "dog" "kalb" "a loyal pet" "noun".

Definition twoWords : GameList → list VocabItem := λ _, [cat; dog].
Definition oneWord : GameList → list VocabItem := λ _, [cat].
Definition noWords : GameList → list VocabItem := λ _, [].

Definition enrol : list Event := [TypeName "Sim"; TypeClass "B3"].
Definition start : Event := StartTraining keep keep.

(** Both cards of the first word are turned; the match callback is pending. *)
Definition pairTurned_events : list Event :=
  enrol ++ [start; CardClick 0; CardClick 1].
Definition pairTurned : World :=
  Eval vm_compute in run twoWords pairTurned_events (initialWorld "A").

(** The first pair is matched, one card of the second is turned. *)
Definition midGame_events : list Event := [TimeoutFires 0; CardClick 2].
Definition midGame : World :=
  Eval vm_compute in run twoWords midGame_events pairTurned.

(** A session on an empty vocabulary list. *)
Definition emptySession : World :=
  Eval vm_compute in run noWords (enrol ++ [start]) (initialWorld "A").


(** A whole session on one word, up to the last callback, and the events
    that follow it: back to the form, start again while the POST of the first
    session is in flight, the POST succeeds, the second session is played. *)
Definition firstSession : list Event :=
  enrol ++ [start; CardClick 0; CardClick 1; TimeoutFires 0].
Definition secondSession : list Event :=
  [NewChallenge; start; FetchSettles true; CardClick 0; CardClick 1].
Definition finished : World :=
  Eval vm_compute in run oneWord firstSession (initialWorld "A").
Definition beforeSecondEnd : World :=
  Eval vm_compute in
    run oneWord (firstSession ++ secondSession) (initialWorld "A").

(** [midGame] with the mute button pressed. *)
Definition midGameMuted : World := Eval vm_compute in setIsMuted true midGame.

(** Three behaviours of the library behind the hint, and two environments. *)
Definition answering : GenAI :=
  mkGenAI (λ _, None) (λ _, Responds (Some "The cat sleeps on the mat.")).
Definition speechless : GenAI := mkGenAI (λ _, None) (λ _, Responds None).
Definition offline : GenAI := mkGenAI (λ _, None) (λ _, Rejects "503").
Definition broken : GenAI := mkGenAI (λ _, Some "bad key") (λ _, Responds None).

Definition noKey : Env := mkEnv None None.
Definition withKey : Env := mkEnv (Some "k-123") (Some "k-123").
Definition quiet : Io := mkIo [] [].

(** A pool of ten entries, as in the spec's scenario. *)
Definition tenWords : list VocabItem :=
  (λ s, mkVocabItem s ("term " +:+ s) ("arabic " +:+ s) ("english " +:+ s) "noun")
    <$> ["w0"; "w1"; "w2"; "w3"; "w4"; "w5"; "w6"; "w7"; "w8"; "w9"].

(** ** Decks dealt from a vocabulary list *)

(** [deck] holds, in some order, the term card and the match card of each
    entry of a pool drawn from list [l]: as many entries as the difficulty
    asks for, or the whole list when it is shorter. *)
Definition dealt (VOCABULARY : GameList → list VocabItem)
    (l : GameList) (d : Difficulty) (m : GameMode)
    (deck : list CardData) : Prop :=
  ∃ pool, pool ⊆+ VOCABULARY l ∧
          length pool = (wordCount d `min` length (VOCABULARY l))%nat ∧
          deck ≡ₚ gameCards m pool.

(** Number of [Tick] events in a list. *)
Fixpoint ticks (es : list Event) : nat :=
  match es with
  | [] => 0
  | Tick :: es => S (ticks es)
  | _ :: es => ticks es
  end.

(** ** The hint button ([showHint]) *)

(** The hooks [hint] and [isLoadingHint], and the number of callbacks
    [() => setHint(null)] given to [setTimeout] that have not run yet. *)
Record HintBanner := mkBanner {
  hint : option string;
  isLoadingHint : bool;
  hintTimeouts : nat
}.

(** [cards.filter(c => !matchedPairs.includes(c.vocabId) && c.type === 'term')] *)
Definition unmatchedTerms (w : World) : list CardData :=
  filter (λ c, (vocabId c ∉ matchedPairs (gameState w)) ∧ type c = term)
         (cards w).

(** [Math.floor(Math.random() * n)] for [n > 0]: some index below [n].  The
    draw is represented by a natural number, of which the index is the
    remainder. *)
Definition randomIndex (draw n : nat) : nat := draw `mod` n.

Section ShowHint.

Variable VOCABULARY : GameList → list VocabItem.

(** [showHint], from the click on the button to the end of the [async]
    function; while [getVocabHint] is awaited [isLoadingHint] is true.  The
    game state is read, never written. *)
Definition showHint (draw : nat) (env : Env) (lib : GenAI) (w : World)
    (b : HintBanner) : Eff HintBanner :=
  let unmatched := unmatchedTerms w in
  if decide (length unmatched = 0%nat) then mret b
  else
    match unmatched !! randomIndex draw (length unmatched) with
    | None => λ io, (Throws "TypeError: randomCard is undefined", io)
    | Some randomCard =>
      let vocabData :=
        snd <$> list_find (λ v, id v = vocabId randomCard)
                          (VOCABULARY (selectedList (gameState w))) in
      match vocabData with
      | Some v =>
        let b := mkBanner (hint b) true (hintTimeouts b) in
        hintText ← GeminiService.getVocabHint env lib (entry v) (pos v);
        let b := mkBanner (Some ("Hint: " +:+ hintText)) (isLoadingHint b)
                          (hintTimeouts b) in
        let b := mkBanner (hint b) false (hintTimeouts b) in
        mret (mkBanner (hint b) (isLoadingHint b) (S (hintTimeouts b)))
      | None => mret b
      end
    end.

End ShowHint.

(** The callback [() => setHint(null)] runs. *)
Definition hintTimeoutFires (b : HintBanner) : HintBanner :=
  mkBanner None (isLoadingHint b) (pred (hintTimeouts b)).

(** ** The sound hook ([useAudio]) *)

(** A number literal of the source, [mantissa * 10 ^ exponent]: [0.05] is
    [dec 5 (-2)]. *)
Record Decimal := dec { mantissa : Z; exponent : Z }.

Inductive OscillatorType := sine | triangle.
Inductive ContextState := suspended | running.

(** The calls [playSound] makes on the Web Audio objects, in the order of the
    source.  Times are relative to [audioCtx.current.currentTime]: [stop d]
    is [osc.stop(currentTime + d)]. *)
Inductive AudioCall :=
| resume
| createOscillator
| createGain
| set_type (t : OscillatorType)
| frequency_setValueAtTime (freq : Decimal)
| gain_setValueAtTime (volume : Decimal)
| gain_exponentialRampToValueAtTime (value after : Decimal)
| osc_connect_gain
| gain_connect_destination
| osc_start
| osc_stop (after : Decimal).

Record Tone := mkTone {
  freq : Decimal;
  wave : OscillatorType;
  duration : Decimal;
  volume : Decimal
}.

(** The ref [audioCtx] with the state its context is in at the moment (the
    value [audioCtx.current.state] would read now; the browser changes it,
    see [contextStateChanges]), the calls that went through, the warnings
    logged, and the tones that [playMatch] has handed to [setTimeout]. *)
Record AudioHook := mkAudioHook {
  audioCtx : option ContextState;
  calls : list AudioCall;
  warnings : list string;
  laterTones : list Tone
}.

(** What the browser does: whether the constructor of the context throws
    and in which state a new context is, and which calls throw. *)
Record Browser := mkBrowser {
  newAudioContext : Completion ContextState;
  blocked : AudioCall → bool
}.

Definition Snd (A : Type) : Type := AudioHook → Completion A * AudioHook.

Global Instance Snd_ret : MRet Snd := λ A a h, (Returns a, h).

Global Instance Snd_bind : MBind Snd := λ A B f m h,
  match m h with
  | (Returns a, h') => f a h'
  | (Throws err, h') => (Throws err, h')
  end.

Definition sndTryCatch {A} (body : Snd A) (handler : string → Snd A) : Snd A :=
  λ h, match body h with
       | (Returns a, h') => (Returns a, h')
       | (Throws err, h') => handler err h'
       end.

Definition call (br : Browser) (c : AudioCall) : Snd unit :=
  λ h, if blocked br c then (Throws "blocked", h)
       else (Returns (), mkAudioHook (audioCtx h) (calls h ++ [c])
                                    (warnings h) (laterTones h)).

Definition snd_warn (msg : string) : Snd unit :=
  λ h, (Returns (), mkAudioHook (audioCtx h) (calls h)
                                (warnings h ++ [msg]) (laterTones h)).

(** [if (!audioCtx.current) audioCtx.current = new AudioContext()]; the
    constructor is not guarded. *)
Definition initAudio (br : Browser) : Snd unit :=
  λ h, match audioCtx h with
       | Some _ => (Returns (), h)
       | None =>
         match newAudioContext br with
         | Returns st => (Returns (), mkAudioHook (Some st) (calls h)
                                                 (warnings h) (laterTones h))
         | Throws err => (Throws err, h)
         end
       end.

(** The browser moves the context into another state between two turns of
    the event loop: it honours an earlier [resume()], or it suspends the
    context.  [resume()] itself returns a promise and leaves [state] as it
    is within the turn. *)
Definition contextStateChanges (now : ContextState) : Snd unit :=
  λ h, (Returns (),
        mkAudioHook (match audioCtx h with Some _ => Some now | None => None end)
                    (calls h) (warnings h) (laterTones h)).

(** The calls of one tone when nothing throws; [st] is the state read at
    the head of [playSound]. *)
Definition script (st : ContextState) (t : Tone) : list AudioCall :=
  (match st with suspended => [resume] | running => [] end) ++
  [createOscillator; createGain; set_type (wave t);
   frequency_setValueAtTime (freq t);
   gain_setValueAtTime (volume t);
   gain_exponentialRampToValueAtTime (dec 1 (-4)) (duration t);
   osc_connect_gain; gain_connect_destination;
   osc_start; osc_stop (duration t)].

Definition playSound (br : Browser) (t : Tone) : Snd unit :=
  sndTryCatch
    (λ h, match audioCtx h with
          | None => (Returns (), h)
          | Some st =>
            ((match st with
              | suspended => call br resume
              | running => mret ()
              end);;
             call br createOscillator;;
             call br createGain;;
             call br (set_type (wave t));;
             call br (frequency_setValueAtTime (freq t));;
             call br (gain_setValueAtTime (volume t));;
             call br (gain_exponentialRampToValueAtTime (dec 1 (-4))
                                                        (duration t));;
             call br osc_connect_gain;;
             call br gain_connect_destination;;
             call br osc_start;;
             call br (osc_stop (duration t))) h
          end)
    (λ e, snd_warn "Audio play blocked/failed:").

Definition flipTone : Tone := mkTone (dec 400 0) sine (dec 1 (-1)) (dec 5 (-2)).
Definition matchTone1 : Tone := mkTone (dec 600 0) sine (dec 1 (-1)) (dec 1 (-1)).
Definition matchTone2 : Tone := mkTone (dec 800 0) sine (dec 15 (-2)) (dec 1 (-1)).
Definition errorTone : Tone := mkTone (dec 150 0) triangle (dec 3 (-1)) (dec 1 (-1)).

Definition playFlip (br : Browser) : Snd unit := playSound br flipTone.

(** [setTimeout(() => playSound(...), 100)] *)
Definition playLater (t : Tone) : Snd unit :=
  λ h, (Returns (), mkAudioHook (audioCtx h) (calls h) (warnings h)
                                (laterTones h ++ [t])).

(** [playSound(600, ...); setTimeout(() => playSound(800, ...), 100)] *)
Definition playMatch (br : Browser) : Snd unit :=
  playSound br matchTone1;; playLater matchTone2.

Definition playError (br : Browser) : Snd unit := playSound br errorTone.

(** The callback of [playMatch] runs, 100 ms after the first tone:
    [playSound] reads the state the context is in by then. *)
Definition laterToneFires (br : Browser) : Snd unit :=
  λ h, match laterTones h with
       | [] => (Returns (), h)
       | t :: rest =>
         playSound br t (mkAudioHook (audioCtx h) (calls h) (warnings h) rest)
       end.

(** Number of [resume()] calls in a list of calls. *)
Fixpoint resumes (cs : list AudioCall) : nat :=
  match cs with
  | [] => 0
  | resume :: cs => S (resumes cs)
  | _ :: cs => resumes cs
  end.

(** ** The start button

    [initGame] as the source has it: the call of [initAudio] at its head,
    then the statements modelled by [initGame] above.  The constructor of the
    context is not guarded, so when it throws the exception leaves the
    handler before any setter is called. *)
Definition initGameWithAudio (VOCABULARY : GameList → list VocabItem)
    (br : Browser) (sortPool : Shuffle VocabItem)
    (sortCards : Shuffle CardData) (w : World) : Snd World :=
  initAudio br;; mret (initGame VOCABULARY sortPool sortCards w).

(** One turn of the event loop for a click on the button: when the handler
    returned the page is rendered and the effects run; when it threw no
    state was set and nothing is rendered anew. *)
Definition dispatchStart (VOCABULARY : GameList → list VocabItem)
    (br : Browser) (sortPool : Shuffle VocabItem)
    (sortCards : Shuffle CardData) (w : World) (h : AudioHook)
    : World * AudioHook :=
  match initGameWithAudio VOCABULARY br sortPool sortCards w h with
  | (Returns w', h') => (commit w w', h')
  | (Throws _, h') => (w, h')
  end.

(** The calls of a list that go through: those before the first one that
    throws. *)
Fixpoint played (br : Browser) (cs : list AudioCall) : list AudioCall :=
  match cs with
  | [] => []
  | c :: cs => if blocked br c then [] else c :: played br cs
  end.

(** ** More sample data *)

(** A session on the two-word list that has just begun. *)
Definition justStarted : World :=
  Eval vm_compute in run twoWords (enrol ++ [start]) (initialWorld "A").

(** On the one-word list both cards are turned; the last callback is
    pending. *)
Definition lastPairTurned_events : list Event :=
  enrol ++ [start; CardClick 0; CardClick 1].
Definition lastPairTurned : World :=
  Eval vm_compute in run oneWord lastPairTurned_events (initialWorld "A").

(** The form before the first session, name and class filled in. *)
Definition enrolled : World :=
  Eval vm_compute in run oneWord enrol (initialWorld "A").

(** The form after a session of two seconds on the one-word list. *)
Definition secondRound : World :=
  Eval vm_compute in
    run oneWord
        (enrol ++ [start; Tick; Tick; CardClick 0; CardClick 1;
                   TimeoutFires 0; NewChallenge])
        (initialWorld "A").

Definition noBanner : HintBanner := mkBanner None false 0.

Definition noSound : AudioHook := mkAudioHook None [] [] [].
Definition willing : Browser := mkBrowser (Returns suspended) (λ _, false).
Definition unwilling : Browser :=
  mkBrowser (Throws "NotSupportedError") (λ _, false).
(** A browser that lets everything through but [osc.start()]. *)
Definition halting : Browser :=
  mkBrowser (Returns running)
            (λ c, match c with osc_start => true | _ => false end).
(** ** Lemmas on the deck builder *)

Lemma gameCards_length m pool :
  length (gameCards m pool) = (2 * length pool)%nat.
Proof. induction pool as [|item rest IH]; simpl; lia. Qed.

Lemma gameCards_vocabIds m pool v :
  v ∈ vocabId <$> gameCards m pool ↔ v ∈ id <$> pool.
Proof.
  induction pool as [|item rest IH]; simpl; [done|].
  rewrite !elem_of_cons, IH. cbn [vocabId termCard matchCard]. tauto.
Qed.

Lemma gameCards_absent m pool v :
  v ∉ id <$> pool → filter (λ c, vocabId c = v) (gameCards m pool) = [].
Proof.
  induction pool as [|item rest IH]; simpl; [done|].
  rewrite not_elem_of_cons. intros [Hne Hrest].
  rewrite !filter_cons. simpl.
  repeat case_decide; try congruence. auto.
Qed.

Lemma filter_and_nil {A} (P Q : A → Prop) `{!∀ x, Decision (P x)}
    `{!∀ x, Decision (Q x)} (l : list A) :
  filter P l = [] → filter (λ x, P x ∧ Q x) l = [].
Proof.
  induction l as [|x l IH]; [done|].
  rewrite !filter_cons. intros Hnil.
  repeat case_decide; try done; try (exfalso; tauto). auto.
Qed.

Lemma gameCards_pairs m pool v :
  NoDup (id <$> pool) → v ∈ id <$> pool →
  occurrences v (gameCards m pool) = 2%nat ∧
  occurrences_of term v (gameCards m pool) = 1%nat ∧
  occurrences_of match_ v (gameCards m pool) = 1%nat.
Proof.
  unfold occurrences, occurrences_of.
  induction pool as [|item rest IH].
  - intros _ Hin. by apply elem_of_nil in Hin.
  - rewrite fmap_cons, NoDup_cons, elem_of_cons. intros [Hfresh Hnd] Hin.
    cbn [gameCards]. rewrite !filter_cons.
    cbn [vocabId type termCard matchCard].
    destruct (decide (id item = v)) as [Heq|Hne].
    + subst v. pose proof (gameCards_absent m rest _ Hfresh) as Hnil.
      rewrite Hnil, !(filter_and_nil _ _ _ Hnil).
      repeat case_decide; try done; exfalso; intuition congruence.
    + destruct Hin as [->|Hin]; [done|].
      specialize (IH Hnd Hin).
      repeat case_decide; try done; exfalso; intuition congruence.
Qed.

Lemma buildDeck_perm sp sc vocabulary d m :
  fair sc →
  buildDeck sp sc vocabulary d m ≡ₚ gameCards m (take (wordCount d) (sp vocabulary)).
Proof. intros Hsc. apply Hsc. Qed.

Lemma drawn_ids_NoDup (sp : Shuffle VocabItem) vocabulary n :
  fair sp → NoDup (id <$> vocabulary) → NoDup (id <$> take n (sp vocabulary)).
Proof.
  intros Hsp Hnd. rewrite fmap_take.
  apply (sublist_NoDup _ (id <$> sp vocabulary)); [|apply sublist_take].
  by rewrite (Hsp vocabulary).
Qed.

(** The count depends only on which of the two words the label includes. *)
Lemma wordCount_cases d :
  (includes "Hard" d = true ∧ wordCount d = 20%nat) ∨
  (includes "Hard" d = false ∧ includes "Medium" d = true ∧
   wordCount d = 15%nat) ∨
  (includes "Hard" d = false ∧ includes "Medium" d = false ∧
   wordCount d = 10%nat).
Proof.
  unfold wordCount.
  destruct (includes "Hard" d); [by left|].
  destruct (includes "Medium" d); right; [by left|by right].
Qed.

Example wordCount_of_longer_labels :
  wordCount "Hard (20 words)" = 20%nat ∧
  wordCount "Medium (15 words)" = 15%nat ∧
  wordCount "Easy (10 words)" = 10%nat.
Proof. repeat split; vm_compute; reflexivity. Qed.

(** C4. For every vocabulary pool with distinct ids, every difficulty label
    and every outcome of the two random sorts, the deck built by [initGame]
    has [2 * min count |pool|] cards, where [count] is 10, 15 or 20 for the
    Easy, Medium and Hard settings; its length is even, a pool shorter than
    [count] is used whole, and every vocab id that occurs in the deck occurs
    in exactly two cards, one of type term and one of type match. *)
Theorem buildDeck_shape (sp : Shuffle VocabItem) (sc : Shuffle CardData)
    (vocabulary : list VocabItem) (d : Difficulty) (m : GameMode) :
  fair sp → fair sc → NoDup (id <$> vocabulary) →
  let deck := buildDeck sp sc vocabulary d m in
  wordCount Difficulty_Easy = 10%nat ∧
  wordCount Difficulty_Medium = 15%nat ∧
  wordCount Difficulty_Hard = 20%nat ∧
  length deck = (2 * (wordCount d `min` length vocabulary))%nat ∧
  Nat.even (length deck) = true ∧
  ∀ v, v ∈ vocabId <$> deck →
       occurrences v deck = 2%nat ∧
       occurrences_of term v deck = 1%nat ∧
       occurrences_of match_ v deck = 1%nat.
Proof.
  intros Hsp Hsc Hnd deck.
  pose proof (buildDeck_perm sp sc vocabulary d m Hsc) as Hperm.
  fold deck in Hperm.
  assert (Hlen : length deck = (2 * (wordCount d `min` length vocabulary))%nat).
  { rewrite Hperm, gameCards_length, length_take.
    by rewrite (Permutation_length (Hsp vocabulary)). }
  do 3 (split; [by vm_compute|]).
  split; [done|]. split; [by rewrite Hlen, Nat.even_mul|].
  intros v Hv. unfold occurrences, occurrences_of. rewrite Hperm.
  apply gameCards_pairs; [by apply drawn_ids_NoDup|].
  apply gameCards_vocabIds with (m := m). by rewrite <- Hperm.
Qed.


(** ** The page keeps the invariant *)

Section AppProofs.

Context (VOCABULARY : GameList → list VocabItem) (ListA : GameList).

Local Abbreviation initGame := (initGame VOCABULARY).
Local Abbreviation handle := (handle VOCABULARY).
Local Abbreviation dispatch := (dispatch VOCABULARY).
Local Abbreviation run := (run VOCABULARY).
Local Abbreviation trace := (trace VOCABULARY).
Local Abbreviation reachable := (reachable VOCABULARY ListA).
Local Abbreviation initialWorld := (initialWorld ListA).

(** The invariant reads four hooks only. *)
Lemma Inv_ext w w' :
  gameState w' = gameState w → cards w' = cards w →
  flippedCards w' = flippedCards w → timeouts w' = timeouts w →
  Inv w → Inv w'.
Proof.
  intros Hg Hc Hf Ht [H1 H2 H3 H4 H5 H6].
  constructor; unfold pending_ok in *; rewrite ?Hg, ?Hc, ?Hf, ?Ht; done.
Qed.

Lemma submitResultToSheet_core w :
  gameState (submitResultToSheet w) = gameState w ∧
  cards (submitResultToSheet w) = cards w ∧
  flippedCards (submitResultToSheet w) = flippedCards w ∧
  timeouts (submitResultToSheet w) = timeouts w ∧
  isMuted (submitResultToSheet w) = isMuted w ∧
  audio (submitResultToSheet w) = audio w.
Proof. unfold submitResultToSheet. by case_bool_decide. Qed.

Lemma commit_core w0 w :
  gameState (commit w0 w) = gameState w ∧
  cards (commit w0 w) = cards w ∧
  flippedCards (commit w0 w) = flippedCards w ∧
  timeouts (commit w0 w) = timeouts w ∧
  isMuted (commit w0 w) = isMuted w ∧
  audio (commit w0 w) = audio w.
Proof.
  unfold commit, overEffect.
  case_bool_decide; [done|].
  destruct (isGameOver (gameState w)); [|done].
  apply submitResultToSheet_core.
Qed.

Lemma Inv_commit w0 w : Inv w → Inv (commit w0 w).
Proof.
  destruct (commit_core w0 w) as (?&?&?&?&_).
  by apply Inv_ext.
Qed.

Lemma unlessMuted_core muted s w :
  gameState (unlessMuted muted s w) = gameState w ∧
  cards (unlessMuted muted s w) = cards w ∧
  flippedCards (unlessMuted muted s w) = flippedCards w ∧
  timeouts (unlessMuted muted s w) = timeouts w ∧
  isMuted (unlessMuted muted s w) = isMuted w ∧
  submitStatus (unlessMuted muted s w) = submitStatus w ∧
  fetches (unlessMuted muted s w) = fetches w ∧
  posted (unlessMuted muted s w) = posted w.
Proof. by destruct muted. Qed.

Lemma Inv_mount : Inv initialWorld.
Proof.
  constructor; simpl; try done.
  - constructor.
  - intros i Hi. by apply elem_of_nil in Hi.
  - by left.
Qed.

(** In a world that satisfies the invariant the selection and the pending
    callbacks are in one of three shapes. *)
Lemma Inv_shapes w :
  Inv w →
  (flippedCards w = [] ∧ timeouts w = []) ∨
  (∃ a, flippedCards w = [a] ∧ timeouts w = []) ∨
  (∃ a b cb, flippedCards w = [a; b] ∧ timeouts w = [cb] ∧
             resolves (cards w) a b cb).
Proof.
  intros HI. pose proof (inv_pending w HI) as Hp. unfold pending_ok in Hp.
  destruct (flippedCards w) as [|a [|b [|c l]]]; try done.
  - by left.
  - right; left. by exists a.
  - right; right. destruct Hp as (cb & Ht & Hr). by exists a, b, cb.
Qed.

Lemma Inv_initGame sp sc w :
  Inv w → onSetup w → Inv (initGame sp sc w).
Proof.
  intros HI Hsetup.
  pose proof (inv_rest w HI (or_introl Hsetup)) as Hfl.
  pose proof (inv_pending w HI) as Hp. unfold pending_ok in Hp.
  rewrite Hfl in Hp.
  constructor; simpl; try done.
  - constructor.
  - intros i Hi. by apply elem_of_nil in Hi.
  - unfold allMatched. simpl.
    destruct (buildDeck _ _ _ _ _) as [|c deck]; [by left|by right].
Qed.

Lemma Inv_handleCardClick index w :
  Inv w → onBoard w → Inv (world_of (handleCardClick index w)).
Proof.
  intros HI [Hstarted Hover]. unfold handleCardClick.
  destruct (bool_decide (length (flippedCards w) = 2%nat)
            || bool_decide (index ∈ flippedCards w)) eqn:Hguard; [done|].
  apply orb_false_iff in Hguard as [Hlen Hsel].
  apply bool_decide_eq_false in Hlen, Hsel.
  destruct (card_at (cards w) index) as [c|] eqn:Hc; [|done].
  case_bool_decide as Hmatched; [done|].
  destruct (unlessMuted_core (isMuted w) FlipSound w) as (Eg&Ec&Ef&Et&_).
  set (w1 := unlessMuted (isMuted w) FlipSound w) in *.
  cbn zeta.
  destruct (Inv_shapes w HI) as [[Hfl Hts]|[(a&Hfl&Hts)|(a&b&cb&Hfl&_)]];
    rewrite Hfl in *; [| |done].
  - (* first card of a selection *)
    simpl. destruct HI as [H1 H2 H3 H4 H5 H6].
    constructor; unfold pending_ok; simpl; rewrite ?Eg, ?Ec, ?Et; try done.
    + intros i ->%list_elem_of_singleton. eauto.
    + intros [?|?]; congruence.
  - (* second card: a callback is scheduled *)
    simpl.
    destruct (inv_flipped w HI a) as (c0 & Hc0 & Hfresh0).
    { rewrite Hfl. apply list_elem_of_singleton. done. }
    rewrite Hc0, Hc.
    destruct HI as [H1 H2 H3 H4 H5 H6].
    assert (Hboth : ∀ i, i ∈ [a; index] →
              ∃ c', card_at (cards w) i = Some c' ∧
                    vocabId c' ∉ matchedPairs (gameState w)).
    { intros i [->|[->|[]%elem_of_nil]%elem_of_cons]%elem_of_cons; eauto. }
    destruct (decide (vocabId c0 = vocabId c)) as [Heq|Hne]; simpl;
      constructor; unfold pending_ok; simpl;
      rewrite ?Eg, ?Ec, ?Et, ?Hts; try done;
      try (intros [?|?]; congruence).
    + eexists; split; [done|]. exists c0, c. repeat split; try done.
      rewrite decide_True by done. eauto.
    + eexists; split; [done|]. exists c0, c. repeat split; try done.
      rewrite decide_False by done. eauto.
Qed.

Lemma Inv_runResolution k w :
  Inv w → (k < length (timeouts w))%nat →
  Inv (world_of (handle (TimeoutFires k) w)).
Proof.
  intros HI Hk.
  destruct (Inv_shapes w HI) as [[_ Hts]|[(a&_&Hts)|(a&b&cb&Hfl&Hts&Hr)]];
    try (rewrite Hts in Hk; simpl in Hk; lia).
  rewrite Hts in Hk. simpl in Hk. assert (k = 0%nat) as -> by lia.
  unfold handle. rewrite Hts. simpl.
  destruct Hr as (c0 & c1 & Hc0 & Hc1 & Hcb).
  destruct (inv_flipped w HI a) as (c0' & Hc0' & Hfresh).
  { rewrite Hfl. apply elem_of_cons. by left. }
  assert (c0' = c0) as -> by congruence.
  destruct HI as [H1 H2 H3 H4 H5 H6].
  destruct (decide (vocabId c0 = vocabId c1)) as [Heq|Hne];
    destruct Hcb as [muted ->]; unfold runResolution.
  - (* the match callback *)
    simpl. rewrite Hc0. destruct muted; simpl.
    all: constructor; unfold pending_ok; simpl; try done.
    all: try (rewrite length_app; simpl; lia).
    all: try (apply NoDup_app; repeat split;
              [done| by intros ? ? ->%list_elem_of_singleton
                   | apply NoDup_singleton]).
    all: try (intros i Hi; by apply elem_of_nil in Hi).
    all: by right.
  - (* the mismatch callback *)
    destruct muted; simpl.
    all: constructor; unfold pending_ok; simpl; try done.
    all: intros i Hi; by apply elem_of_nil in Hi.
Qed.

Lemma Inv_dispatch e w : Inv w → enabled e w → Inv (dispatch e w).
Proof.
  intros HI Hen. unfold dispatch. apply Inv_commit.
  destruct e; simpl in Hen |- *.
  - apply Inv_initGame; [done|apply Hen].
  - by apply Inv_handleCardClick.
  - by apply (Inv_runResolution k).
  - destruct Hen as [Hs Ho], HI as [H1 H2 H3 H4 H5 H6].
    constructor; unfold pending_ok; simpl; try done.
  - revert HI. by apply Inv_ext.
  - destruct Hen as [Hs Ho].
    pose proof (inv_rest w HI (or_intror Ho)) as Hfl.
    destruct HI as [H1 H2 H3 H4 H5 H6].
    constructor; unfold pending_ok; simpl; try done.
  - destruct HI as [H1 H2 H3 H4 H5 H6].
    constructor; unfold pending_ok; simpl; try done.
  - destruct HI as [H1 H2 H3 H4 H5 H6].
    constructor; unfold pending_ok; simpl; try done.
  - destruct HI as [H1 H2 H3 H4 H5 H6].
    constructor; unfold pending_ok; simpl; try done.
  - destruct HI as [H1 H2 H3 H4 H5 H6].
    constructor; unfold pending_ok; simpl; try done.
  - revert HI. by apply Inv_ext.
Qed.

Lemma reachable_Inv w : reachable w → Inv w.
Proof.
  induction 1 as [|w e _ IH Hen]; [apply Inv_mount|by apply Inv_dispatch].
Qed.

(** *** What one event does to the matched pairs and the score *)

Lemma handleCardClick_gameState index w :
  gameState (world_of (handleCardClick index w)) = gameState w.
Proof.
  unfold handleCardClick.
  destruct (_ || _); [done|].
  destruct (card_at (cards w) index) as [c|]; [|done].
  case_bool_decide; [done|].
  destruct (unlessMuted_core (isMuted w) FlipSound w) as (Eg&_&Ef&_).
  cbn zeta.
  destruct (_ ++ [index]) as [|a [|b [|? ?]]]; simpl; try done.
  destruct (card_at (cards w) a), (card_at (cards w) b); simpl; try done.
  by case_decide.
Qed.

Lemma step_effect e w :
  in_session e →
  let g := gameState w in
  let g' := gameState (dispatch e w) in
  (matchedPairs g' = matchedPairs g ∧ score g' = score g) ∨
  (confirms_match e w ∧
   ∃ v, matchedPairs g' = matchedPairs g ++ [v] ∧ score g' = score g + 10).
Proof.
  intros Hses g g'. subst g g'. unfold dispatch.
  destruct (commit_core w (world_of (handle e w))) as [-> _].
  destruct e; simpl in Hses |- *; try done; try (by left).
  - left. by rewrite handleCardClick_gameState.
  - destruct (timeouts w !! k) as [cb|] eqn:Hk; [|by left].
    destruct cb as [muted deck newFlipped|muted]; simpl.
    + destruct (newFlipped !! 0%nat ≫= card_at deck) as [c|]; simpl.
      * right. split; [by exists k, muted, deck, newFlipped|].
        exists (vocabId c). by destruct muted.
      * left. by destruct muted.
    + left. by destruct muted.
Qed.

(** A session event either leaves matched ids and score alone, or runs a
    match callback, which appends one id that was not there and adds ten. *)
Lemma step_grows e w :
  Inv (dispatch e w) → in_session e →
  let g := gameState w in
  let g' := gameState (dispatch e w) in
  matchedPairs g `prefix_of` matchedPairs g' ∧
  score g ≤ score g' ∧
  ((matchedPairs g' = matchedPairs g ∧ score g' = score g) ∨
   (confirms_match e w ∧
    ∃ v, (v ∉ matchedPairs g) ∧ matchedPairs g' = matchedPairs g ++ [v] ∧
         score g' = score g + 10)).
Proof.
  intros HI' Hses. cbn zeta.
  destruct (step_effect e w Hses) as [[Hm Hs]|(Hc & v & Hm & Hs)].
  - rewrite Hm, Hs. split; [done|]. split; [lia|]. by left.
  - rewrite Hm, Hs. split; [by apply prefix_app_r|]. split; [lia|].
    right. split; [done|]. exists v. split; [|done].
    pose proof (inv_distinct _ HI') as Hnd. rewrite Hm in Hnd.
    apply NoDup_app in Hnd as (_ & Hfresh & _).
    intros Hin. apply (Hfresh v Hin). by apply list_elem_of_singleton.
Qed.

(** ** The claims on the match engine *)

(** C1. In every world reachable through the page the score is ten times the
    number of matched vocab ids and no id is matched twice; every event of a
    running session (a card click, a timeout, a tick, the mute button, ...)
    keeps the matched ids as a prefix of the new ones, never lowers the score,
    and either leaves both unchanged or is a match callback that adds one new
    id and ten points. *)
Theorem score_tracks_matches w :
  reachable w →
  let g := gameState w in
  score g = 10 * Z.of_nat (length (matchedPairs g)) ∧
  NoDup (matchedPairs g) ∧
  ∀ e, enabled e w → in_session e →
    let g' := gameState (dispatch e w) in
    matchedPairs g `prefix_of` matchedPairs g' ∧
    score g ≤ score g' ∧
    ((matchedPairs g' = matchedPairs g ∧ score g' = score g) ∨
     (confirms_match e w ∧
      ∃ v, (v ∉ matchedPairs g) ∧ matchedPairs g' = matchedPairs g ++ [v] ∧
           score g' = score g + 10)).
Proof.
  intros Hw. pose proof (reachable_Inv w Hw) as HI. cbn zeta.
  split; [apply HI|]. split; [apply HI|].
  intros e Hen Hses. apply step_grows; [|done].
  by apply Inv_dispatch.
Qed.

(** C2, as amended. In every world reachable through the page whose deck is
    not empty, the game-over flag is set if and only if twice the number of
    matched vocab ids is the length of the deck. *)
Theorem over_iff_all_matched w :
  reachable w → cards w ≠ [] →
  isGameOver (gameState w) = true ↔
  (length (matchedPairs (gameState w)) * 2)%nat = length (cards w).
Proof.
  intros Hw Hdeck.
  destruct (inv_over w (reachable_Inv w Hw)) as [[Hnil _]|Hover]; [done|].
  rewrite Hover. unfold allMatched. rewrite bool_decide_eq_true. lia.
Qed.

(** C3. A click is ignored, and the whole world (selection, score, matched
    ids, timer, game-over flag, pending callbacks, sounds) stays as it is,
    when two cards are already selected, when the clicked index is already
    selected, or when the card at the index carries a matched vocab id; the
    handler returns without a fault. *)
Theorem handleCardClick_ignored index w :
  length (flippedCards w) = 2%nat ∨
  index ∈ flippedCards w ∨
  (∃ c, card_at (cards w) index = Some c ∧
        vocabId c ∈ matchedPairs (gameState w)) →
  handleCardClick index w = Done w ∧ dispatch (CardClick index) w = w.
Proof.
  intros Hcase.
  assert (Hdone : handleCardClick index w = Done w).
  { unfold handleCardClick.
    destruct (bool_decide (length (flippedCards w) = 2%nat)
              || bool_decide (index ∈ flippedCards w)) eqn:Hguard; [done|].
    apply orb_false_iff in Hguard as [Hlen Hsel].
    apply bool_decide_eq_false in Hlen, Hsel.
    destruct Hcase as [?|[?|(c & Hc & Hm)]]; [done|done|].
    rewrite Hc. by rewrite bool_decide_eq_true_2. }
  split; [done|].
  unfold dispatch. simpl. rewrite Hdone. simpl.
  unfold commit. by rewrite bool_decide_eq_true_2.
Qed.

(** *** Callbacks and resets *)





(** C9. [handleCardClick] is safe exactly for indices inside the deck: in a
    world reachable through the page a click on an index with
    [0 <= index < cards.length] never faults, while in any world an index
    outside that range that gets past the two selection guards makes
    [cards[index]] undefined, and reading its [vocabId] throws; the world is
    left as it was, but the call does not return normally. *)
Theorem handleCardClick_safety w index :
  (reachable w → 0 ≤ index < Z.of_nat (length (cards w)) →
   faulted (handleCardClick index w) = false) ∧
  (¬ (0 ≤ index < Z.of_nat (length (cards w))) →
   length (flippedCards w) ≠ 2%nat → index ∉ flippedCards w →
   card_at (cards w) index = None ∧
   handleCardClick index w = TypeError w).
Proof.
  split.
  - intros Hw Hrange. pose proof (reachable_Inv w Hw) as HI.
    unfold handleCardClick.
    destruct (_ || _); [done|].
    destruct (card_at (cards w) index) as [c|] eqn:Hc.
    + case_bool_decide; [done|].
      destruct (unlessMuted_core (isMuted w) FlipSound w) as (_&_&Ef&_).
      cbn zeta.
      destruct (flippedCards w) as [|a [|b [|? ?]]] eqn:Hfl; simpl; try done.
      destruct (inv_flipped w HI a) as (c0 & -> & _).
      { rewrite Hfl. by apply list_elem_of_singleton. }
      rewrite Hc. by case_decide.
    + unfold card_at in Hc. rewrite decide_True in Hc by lia.
      apply lookup_ge_None in Hc. lia.
  - intros Hout Hlen Hsel.
    assert (Hnone : card_at (cards w) index = None).
    { unfold card_at. case_decide; [|done]. apply lookup_ge_None. lia. }
    split; [done|]. unfold handleCardClick.
    rewrite (bool_decide_eq_false_2 _ Hlen), (bool_decide_eq_false_2 _ Hsel).
    simpl. by rewrite Hnone.
Qed.

(** Over a whole run of session events the matched ids only grow and the
    score follows them. *)
Lemma session_monotone es w :
  reachable w → playable VOCABULARY es w → Forall in_session es →
  let g := gameState w in
  let g' := gameState (run es w) in
  matchedPairs g `prefix_of` matchedPairs g' ∧
  score g ≤ score g' ∧
  score g' = 10 * Z.of_nat (length (matchedPairs g')).
Proof.
  cbn zeta. revert w.
  induction es as [|e es IH]; intros w Hw Hes Hall; simpl.
  - split; [done|]. split; [lia|]. apply (reachable_Inv w Hw).
  - destruct Hes as [Hen Hes]. apply Forall_cons in Hall as [He Hall].
    pose proof (reachable_dispatch _ _ w e Hw Hen) as Hw'.
    destruct (step_grows e w (reachable_Inv _ Hw') He) as (Hpre & Hle & _).
    destruct (IH (dispatch e w)) as (Hpre' & Hle' & Hsc); try done.
    split; [by etrans|]. split; [lia|done].
Qed.

(** ** The submission of results *)

Lemma handleCardClick_net index w :
  posted (world_of (handleCardClick index w)) = posted w ∧
  submitStatus (world_of (handleCardClick index w)) = submitStatus w.
Proof.
  unfold handleCardClick.
  destruct (_ || _); [done|].
  destruct (card_at (cards w) index) as [c|]; [|done].
  case_bool_decide; [done|].
  destruct (unlessMuted_core (isMuted w) FlipSound w)
    as (_&_&Ef&_&_&Est&_&Epo).
  cbn zeta.
  destruct (_ ++ [index]) as [|a [|b [|? ?]]]; simpl; try done.
  destruct (card_at (cards w) a), (card_at (cards w) b); simpl; try done.
  by case_decide.
Qed.

Lemma handle_posted e w : posted (world_of (handle e w)) = posted w.
Proof.
  destruct e; simpl; try done.
  - apply handleCardClick_net.
  - destruct (timeouts w !! k) as [[muted deck newFlipped|muted]|]; simpl;
      try done.
    + destruct (newFlipped !! 0%nat ≫= card_at deck); by destruct muted.
    + by destruct muted.
Qed.

(** A row is posted exactly in the turn in which the game-over flag becomes
    true while the status is neither submitting nor success. *)
Lemma posted_dispatch e w :
  let w' := world_of (handle e w) in
  posted (dispatch e w) =
  posted w ++
  if bool_decide (isGameOver (gameState w) = false ∧
                  isGameOver (gameState w') = true ∧
                  submitStatus w' ≠ submitting ∧ submitStatus w' ≠ success)
  then [resultRow (gameState w')] else [].
Proof.
  cbn zeta. unfold dispatch.
  pose proof (handle_posted e w) as Hp.
  set (w' := world_of (handle e w)) in *. rewrite <- Hp. clearbody w'.
  unfold commit, overEffect, submitResultToSheet.
  destruct (isGameOver (gameState w)), (isGameOver (gameState w'));
    simpl; rewrite ?app_nil_r; try done.
  destruct (submitStatus w'); simpl; rewrite ?app_nil_r; done.
Qed.

(** ** The mute button *)

Lemma silent_commit w0 w w0' w' :
  isGameOver (gameState w0) = isGameOver (gameState w0') →
  silent w = silent w' →
  silent (commit w0 w) = silent (commit w0' w').
Proof.
  intros Hover Hs. unfold commit. rewrite Hover.
  assert (Hg : gameState w = gameState w') by (by injection Hs).
  rewrite Hg. case_bool_decide; [done|].
  unfold overEffect. rewrite Hg.
  destruct (isGameOver (gameState w')); [|done].
  unfold submitResultToSheet.
  assert (Hst : submitStatus w = submitStatus w') by (by injection Hs).
  rewrite Hst. case_bool_decide; [done|].
  unfold silent in *. simpl. injection Hs as -> -> -> _ -> -> ->. done.
Qed.

Lemma silent_unlessMuted muted s w : silent (unlessMuted muted s w) = silent w.
Proof. by destruct muted. Qed.

Lemma silent_handleCardClick index w w' :
  silent w = silent w' →
  silent (world_of (handleCardClick index w)) =
    silent (world_of (handleCardClick index w')) ∧
  faulted (handleCardClick index w) = faulted (handleCardClick index w').
Proof.
  intros Hs. unfold handleCardClick.
  injection Hs as Hg Hc Hf Hst Hts Hfe Hpo.
  rewrite Hg, Hc, Hf.
  destruct (_ || _).
  { split; [|done]. unfold silent. simpl. congruence. }
  destruct (card_at (cards w') index) as [c|].
  2:{ split; [|done]. unfold silent. simpl. congruence. }
  case_bool_decide.
  { split; [|done]. unfold silent. simpl. congruence. }
  destruct (unlessMuted_core (isMuted w) FlipSound w)
    as (Eg&Ec&Ef&Et&_&Est&Efe&Epo).
  destruct (unlessMuted_core (isMuted w') FlipSound w')
    as (Eg'&Ec'&Ef'&Et'&_&Est'&Efe'&Epo').
  cbn zeta.
  destruct (flippedCards w' ++ [index]) as [|a [|b [|? ?]]];
    try (split; [|done]; unfold silent; simpl; congruence).
  destruct (card_at (cards w') a), (card_at (cards w') b);
    try (split; [|done]; unfold silent; simpl; congruence).
  case_decide; (split; [|done]); unfold silent, setTimeout; simpl;
    rewrite !fmap_app; simpl; congruence.
Qed.

Lemma silent_runResolution cb cb' w w' :
  unmuted cb = unmuted cb' → silent w = silent w' →
  silent (world_of (runResolution cb w)) =
    silent (world_of (runResolution cb' w')) ∧
  faulted (runResolution cb w) = faulted (runResolution cb' w').
Proof.
  intros Hcb Hs. injection Hs as Hg Hc Hf Hst Hts Hfe Hpo.
  destruct cb as [muted deck newFlipped|muted],
           cb' as [muted' deck' newFlipped'|muted']; simpl in Hcb; try done.
  - injection Hcb as <- <-. simpl.
    destruct (newFlipped !! 0%nat ≫= card_at deck) as [c|]; simpl.
    + split; [|done]. destruct muted, muted'; unfold silent; simpl; congruence.
    + split; [|done]. destruct muted, muted'; unfold silent; simpl; congruence.
  - simpl. split; [|done].
    destruct muted, muted'; unfold silent; simpl; congruence.
Qed.

Lemma silent_handle e w w' :
  silent w = silent w' →
  silent (world_of (handle e w)) = silent (world_of (handle e w')) ∧
  faulted (handle e w) = faulted (handle e w').
Proof.
  intros Hs. destruct e; simpl;
    try (split; [|done]; injection Hs as Hg Hc Hf Hst Hts Hfe Hpo;
         unfold silent; simpl; congruence).
  - by apply silent_handleCardClick.
  - assert (Hts : unmuted <$> timeouts w = unmuted <$> timeouts w')
      by (by injection Hs).
    assert (Hk : unmuted <$> timeouts w !! k = unmuted <$> timeouts w' !! k)
      by (by rewrite <- !list_lookup_fmap, Hts).
    assert (Hrest : silent (setTimeouts (delete k (timeouts w)) w) =
                    silent (setTimeouts (delete k (timeouts w')) w')).
    { injection Hs as Hg Hc Hf Hst _ Hfe Hpo. unfold silent. simpl.
      rewrite !list_fmap_delete, Hts. congruence. }
    destruct (timeouts w !! k) as [cb|], (timeouts w' !! k) as [cb'|];
      simpl in Hk; try done.
    injection Hk as Hcb. by apply silent_runResolution.
Qed.

Lemma silent_dispatch e w w' :
  silent w = silent w' → silent (dispatch e w) = silent (dispatch e w').
Proof.
  intros Hs. unfold dispatch. apply silent_commit.
  - by injection Hs as ->.
  - by apply silent_handle.
Qed.

Lemma silent_game_view w w' : silent w = silent w' → game_view w = game_view w'.
Proof. intros Hs. injection Hs as Hg Hc Hf _. unfold game_view. congruence. Qed.

Lemma silent_enabled e w w' : silent w = silent w' → enabled e w → enabled e w'.
Proof.
  intros Hs. injection Hs as Hg Hc Hf Hst Hts Hfe Hpo.
  assert (Hlen : length (timeouts w) = length (timeouts w')).
  { by rewrite <- (length_fmap unmuted (timeouts w)), Hts, length_fmap. }
  destruct e; unfold enabled, onSetup, onBoard, onResult;
    rewrite ?Hg, ?Hlen, ?Hfe; done.
Qed.

Lemma silent_agree w w' :
  silent w = silent w' →
  game_view w = game_view w' ∧ silent w = silent w' ∧
  (∀ e, enabled e w ↔ enabled e w') ∧
  (∀ e, faulted (handle e w) = faulted (handle e w')).
Proof.
  intros Hs. split; [by apply silent_game_view|]. split; [done|]. split.
  - intros e. split; by apply silent_enabled.
  - intros e. by apply silent_handle.
Qed.

(** C10. Two runs that receive the same events (clicks, timeouts, ticks,
    starts with the same random draws, mute toggles, ...) from worlds that
    differ at most in the mute flag, in the sounds played and in the copies of
    the flag held by pending callbacks, agree at every step on score, timer,
    matched ids, selection, deck and game-over flag, and in fact on everything
    but those three items; the same events are possible in both, and a
    handler faults in one run exactly when it faults in the other. *)
Theorem mute_noninterference es w1 w2 :
  silent w1 = silent w2 →
  Forall2 (λ a b, game_view a = game_view b ∧ silent a = silent b ∧
                  (∀ e, enabled e a ↔ enabled e b) ∧
                  (∀ e, faulted (handle e a) = faulted (handle e b)))
          (trace es w1) (trace es w2).
Proof.
  revert w1 w2. induction es as [|e es IH]; intros w1 w2 Hs; simpl.
  - constructor; [by apply silent_agree|constructor].
  - constructor; [by apply silent_agree|].
    apply IH. by apply silent_dispatch.
Qed.

End AppProofs.

(** ** The hint service never rejects *)

Section Hint.

Context (env : Env) (lib : GenAI) (word pos : string) (io : Io).

(** The body of the [try] block, run with a usable key. *)
Lemma guarded_call_resolves (key : string) (noText failure : string) :
  ∃ s io',
    tryCatch
      (ai ← newGoogleGenAI lib key;
       response ← generateContent lib ai "gemini-3-flash-preview"
                                  (prompt word pos) 0;
       mret (text_or response noText))
      (λ error, console_error "Gemini Hint Error:" error;; mret failure) io
    = (Returns s, io') ∧
    (service_fails lib key word pos → s = failure) ∧
    (∀ sentence,
       construct lib key = None →
       reply lib (mkRequest key "gemini-3-flash-preview" (prompt word pos) 0)
         = Responds (Some sentence) →
       truthy sentence = true → s = sentence).
Proof.
  unfold tryCatch, mbind, Eff_bind, newGoogleGenAI, generateContent,
    service_fails, mret, Eff_ret, console_error.
  destruct (construct lib key) as [err|] eqn:Hc.
  - eexists _, _. split; [done|]. split; [done|]. intros ? [=].
  - destruct (reply lib _) as [err|text] eqn:Hr.
    + eexists _, _. split; [done|]. split; [done|]. intros ? _ [=].
    + eexists _, _. split; [done|]. split.
      * intros [[? [=]]|[err [=]]].
      * intros sentence _ [= ->] Ht. simpl. by rewrite Ht.
Qed.

(** C7. With no API key configured (the lookup gives [undefined] or the
    empty string) [getVocabHint] fulfils its promise with the fixed text
    [noKeyText], whatever the term and the part of speech, and sends no
    request: the list of requests is the one it started with, and the only
    thing it does is log a warning.  This holds for both copies of the
    module. *)
Theorem no_key_no_request :
  (unconfigured (GeminiService.lookupKey env) →
   ∃ io', GeminiService.getVocabHint env lib word pos io
            = (Returns GeminiService.noKeyText, io') ∧
          requests io' = requests io) ∧
  (unconfigured (GeminiServiceIndex.lookupKey env) →
   ∃ io', GeminiServiceIndex.getVocabHint env lib word pos io
            = (Returns GeminiServiceIndex.noKeyText, io') ∧
          requests io' = requests io).
Proof.
  split; intros Hkey; red in Hkey.
  - unfold GeminiService.getVocabHint. rewrite Hkey. simpl.
    by eexists.
  - unfold GeminiServiceIndex.getVocabHint. rewrite Hkey. simpl.
    by eexists.
Qed.

(** C8. For every term and part of speech, every environment and every
    behaviour of the library, the promise of [getVocabHint] is fulfilled with
    a string and never rejected; without a key the string is the fixed text
    [noKeyText], and when the constructor throws or the request is rejected
    it is the fixed text [failureText] of the [catch] block instead of a
    generated sentence; a non-empty sentence that the service does return is
    passed on.  This holds for both copies of the module. *)
Theorem getVocabHint_always_resolves :
  (∃ s io',
     GeminiService.getVocabHint env lib word pos io = (Returns s, io') ∧
     (unconfigured (GeminiService.lookupKey env) →
      s = GeminiService.noKeyText) ∧
     (∀ key, GeminiService.lookupKey env = Some key → truthy key = true →
        (service_fails lib key word pos → s = GeminiService.failureText) ∧
        (∀ sentence,
           construct lib key = None →
           reply lib (mkRequest key "gemini-3-flash-preview"
                                (prompt word pos) 0)
             = Responds (Some sentence) →
           truthy sentence = true → s = sentence))) ∧
  (∃ s io',
     GeminiServiceIndex.getVocabHint env lib word pos io = (Returns s, io') ∧
     (unconfigured (GeminiServiceIndex.lookupKey env) →
      s = GeminiServiceIndex.noKeyText) ∧
     (∀ key, GeminiServiceIndex.lookupKey env = Some key → truthy key = true →
        (service_fails lib key word pos → s = GeminiServiceIndex.failureText) ∧
        (∀ sentence,
           construct lib key = None →
           reply lib (mkRequest key "gemini-3-flash-preview"
                                (prompt word pos) 0)
             = Responds (Some sentence) →
           truthy sentence = true → s = sentence))).
Proof.
  split.
  - unfold GeminiService.getVocabHint, unconfigured.
    destruct (truthy_opt (GeminiService.lookupKey env)) eqn:Hkey; simpl.
    + destruct (guarded_call_resolves
                  (default EmptyString (GeminiService.lookupKey env))
                  GeminiService.noTextText GeminiService.failureText)
        as (s & io' & Hrun & Hfail & Hok).
      exists s, io'. split; [done|]. split; [done|].
      intros key Hsome _. rewrite Hsome in Hfail, Hok. done.
    + eexists _, _. split; [done|]. split; [done|].
      intros key Hsome Ht. rewrite Hsome in Hkey. simpl in Hkey. congruence.
  - unfold GeminiServiceIndex.getVocabHint, unconfigured.
    destruct (truthy_opt (GeminiServiceIndex.lookupKey env)) eqn:Hkey; simpl.
    + destruct (guarded_call_resolves
                  (default EmptyString (GeminiServiceIndex.lookupKey env))
                  GeminiServiceIndex.noTextText
                  GeminiServiceIndex.failureText)
        as (s & io' & Hrun & Hfail & Hok).
      exists s, io'. split; [done|]. split; [done|].
      intros key Hsome _. rewrite Hsome in Hfail, Hok. done.
    + eexists _, _. split; [done|]. split; [done|].
      intros key Hsome Ht. rewrite Hsome in Hkey. simpl in Hkey. congruence.
Qed.

End Hint.

(** ** More on the hint service *)

Lemma prefix_append s t : String.prefix s (s +:+ t) = true.
Proof.
  induction s as [|a s IH]; simpl; [by destruct t|].
  by destruct (ascii_dec a a).
Qed.

Lemma includes_prefix sub t : includes sub (sub +:+ t) = true.
Proof.
  assert (Hstep : ∀ s, String.prefix sub s = true → includes sub s = true).
  { intros s Hs. destruct s; cbn [includes]; by rewrite Hs. }
  apply Hstep, prefix_append.
Qed.

Lemma includes_skip sub s t :
  includes sub t = true → includes sub (s +:+ t) = true.
Proof.
  intros Ht. induction s as [|a s IH]; [done|].
  change (String a s +:+ t) with (String a (s +:+ t)). cbn [includes].
  rewrite IH. apply orb_true_r.
Qed.

Lemma prompt_names_word_and_pos word pos :
  includes word (prompt word pos) = true ∧
  includes pos (prompt word pos) = true.
Proof.
  unfold prompt. split.
  - do 2 apply includes_skip. apply includes_prefix.
  - do 5 apply includes_skip. apply includes_prefix.
Qed.

(** What the body shared by the two copies does, case by case. *)
Lemma guarded_call_run lib key word pos noText failure io :
  tryCatch
    (ai ← newGoogleGenAI lib key;
     response ← generateContent lib ai "gemini-3-flash-preview"
                                (prompt word pos) 0;
     mret (text_or response noText))
    (λ error, console_error "Gemini Hint Error:" error;; mret failure) io
  = match construct lib key with
    | Some err =>
        (Returns failure,
         mkIo (requests io) (console io ++ [Error "Gemini Hint Error:" err]))
    | None =>
        let r := mkRequest key "gemini-3-flash-preview" (prompt word pos) 0 in
        match reply lib r with
        | Rejects err =>
            (Returns failure,
             mkIo (requests io ++ [r])
                  (console io ++ [Error "Gemini Hint Error:" err]))
        | Responds text =>
            (Returns (text_or text noText),
             mkIo (requests io ++ [r]) (console io))
        end
    end.
Proof.
  unfold tryCatch, mbind, Eff_bind, newGoogleGenAI, generateContent, mret,
    Eff_ret, console_error.
  destruct (construct lib key); [done|]. cbn zeta.
  by destruct (reply lib _).
Qed.

Section HintMore.

Context (env : Env) (lib : GenAI) (word pos : string) (io : Io).

(** X12. One call of [getVocabHint] sends at most one request and logs at
    most one line, and it never removes what was sent or logged before.  A
    request is sent exactly when a key is configured and the constructor of
    the client does not throw; it carries that key, the model name, a
    thinking budget of 0 and a prompt that contains the word and the part of
    speech.  A line is logged exactly when the key is missing or the call
    fails.  This holds for both copies of the module. *)
Theorem getVocabHint_effects :
  ∀ (copy : bool),
  let run := if copy then GeminiService.getVocabHint env lib word pos io
             else GeminiServiceIndex.getVocabHint env lib word pos io in
  let key := if copy then GeminiService.lookupKey env
             else GeminiServiceIndex.lookupKey env in
  let k := default EmptyString key in
  let r := mkRequest k "gemini-3-flash-preview" (prompt word pos) 0 in
  ∃ sent logged,
    requests (snd run) = requests io ++ sent ∧
    console (snd run) = console io ++ logged ∧
    (length logged ≤ 1)%nat ∧
    sent = (if truthy_opt key && bool_decide (construct lib k = None)
            then [r] else []) ∧
    (logged = [] ↔ truthy_opt key = true ∧ construct lib k = None ∧
                   ∃ text, reply lib r = Responds text) ∧
    includes word (req_contents r) = true ∧
    includes pos (req_contents r) = true.
Proof.
  intros copy. cbn zeta.
  destruct (prompt_names_word_and_pos word pos) as [Hword Hpos].
  assert (Hcases : ∀ key noKey warning noText failure,
    let k := default EmptyString key in
    let r := mkRequest k "gemini-3-flash-preview" (prompt word pos) 0 in
    let run :=
      (if negb (truthy_opt key)
       then console_warn warning;; mret noKey
       else tryCatch
              (ai ← newGoogleGenAI lib k;
               response ← generateContent lib ai "gemini-3-flash-preview"
                                          (prompt word pos) 0;
               mret (text_or response noText))
              (λ error, console_error "Gemini Hint Error:" error;;
                        mret failure)) io in
    ∃ sent logged,
      requests (snd run) = requests io ++ sent ∧
      console (snd run) = console io ++ logged ∧
      (length logged ≤ 1)%nat ∧
      sent = (if truthy_opt key && bool_decide (construct lib k = None)
              then [r] else []) ∧
      (logged = [] ↔ truthy_opt key = true ∧ construct lib k = None ∧
                     ∃ text, reply lib r = Responds text)).
  { intros key noKey warning noText failure. cbn zeta.
    destruct (truthy_opt key) eqn:Hkey; cbn [negb andb].
    - rewrite guarded_call_run.
      destruct (construct lib _) as [err|] eqn:Hc.
      + exists [], [Error "Gemini Hint Error:" err].
        split; [by rewrite app_nil_r|]. do 3 (split; [done|]).
        split; [done|]. by intros (_ & [=] & _).
      + cbn zeta. destruct (reply lib _) as [err|text] eqn:Hr.
        * eexists [_], [Error "Gemini Hint Error:" err].
          do 4 (split; [done|]). split; [done|].
          by intros (_ & _ & text & [=]).
        * eexists [_], []. split; [done|]. split; [by rewrite app_nil_r|].
          split; [simpl; lia|]. split; [done|]. split; [|done].
          intros _. do 2 (split; [done|]). by exists text.
    - exists [], [Warn warning].
      split; [by rewrite app_nil_r|]. do 3 (split; [done|]).
      split; [done|]. by intros ([=] & _). }
  destruct copy.
  - destruct (Hcases (GeminiService.lookupKey env) GeminiService.noKeyText
                "API_KEY missing. Hints are disabled."
                GeminiService.noTextText GeminiService.failureText)
      as (sent & logged & H1 & H2 & H3 & H4 & H5).
    exists sent, logged. by repeat (split; [done|]).
  - destruct (Hcases (GeminiServiceIndex.lookupKey env)
                GeminiServiceIndex.noKeyText
                "Gemini API Key is not configured. Hints are disabled."
                GeminiServiceIndex.noTextText GeminiServiceIndex.failureText)
      as (sent & logged & H1 & H2 & H3 & H4 & H5).
    exists sent, logged. by repeat (split; [done|]).
Qed.

(** X17. The two copies of the module differ in two texts only.  When
    they find the same key, they send the same requests, log equally many
    lines, and return the same string, except when the call fails: then one
    returns [Try matching the terms!] and the other
    [Keep matching! You are doing great!]. *)
Theorem copies_agree :
  GeminiService.lookupKey env = GeminiServiceIndex.lookupKey env →
  let run1 := GeminiService.getVocabHint env lib word pos io in
  let run2 := GeminiServiceIndex.getVocabHint env lib word pos io in
  requests (snd run1) = requests (snd run2) ∧
  length (console (snd run1)) = length (console (snd run2)) ∧
  (fst run1 = fst run2 ∨
   (fst run1 = Returns GeminiService.failureText ∧
    fst run2 = Returns GeminiServiceIndex.failureText ∧
    ∃ key, GeminiService.lookupKey env = Some key ∧
           service_fails lib key word pos)).
Proof.
  intros Hkey. cbn zeta.
  unfold GeminiService.getVocabHint, GeminiServiceIndex.getVocabHint.
  rewrite <- Hkey.
  destruct (GeminiService.lookupKey env) as [key|] eqn:Hlook; simpl;
    [|split; [done|]; split; [by rewrite !length_app|by left]].
  destruct (truthy key); simpl;
    [|split; [done|]; split; [by rewrite !length_app|by left]].
  rewrite !guarded_call_run.
  destruct (construct lib key) as [err|] eqn:Hc; simpl.
  - split; [done|]. split; [by rewrite !length_app|].
    right. do 2 (split; [done|]). exists key. split; [done|].
    left. by rewrite Hc.
  - destruct (reply lib _) as [err|text] eqn:Hr; simpl.
    + split; [done|]. split; [by rewrite !length_app|].
      right. do 2 (split; [done|]). exists key. split; [done|].
      right. by exists err.
    + split; [done|]. split; [done|]. by left.
Qed.

End HintMore.

(** ** More on the match engine *)

Lemma card_at_Some deck i c :
  card_at deck i = Some c →
  0 ≤ i < Z.of_nat (length deck) ∧ deck !! Z.to_nat i = Some c ∧ c ∈ deck.
Proof.
  unfold card_at. case_decide; [|done]. intros Hc.
  pose proof (lookup_lt_Some _ _ _ Hc). split; [lia|]. split; [done|].
  by eapply list_elem_of_lookup_2.
Qed.

(** What a click does when it is not a no-op and not a fault at the guard:
    the sound, the new selection, and possibly one callback. *)
Lemma handleCardClick_cases index w :
  handleCardClick index w = Done w ∨
  handleCardClick index w = TypeError w ∨
  ∃ c, length (flippedCards w) ≠ 2%nat ∧ (index ∉ flippedCards w) ∧
       card_at (cards w) index = Some c ∧
       (vocabId c ∉ matchedPairs (gameState w)) ∧
       let w1 := setFlippedCards (flippedCards w ++ [index])
                   (unlessMuted (isMuted w) FlipSound w) in
       world_of (handleCardClick index w) = w1 ∨
       ∃ cb, world_of (handleCardClick index w) = setTimeout cb w1.
Proof.
  unfold handleCardClick.
  destruct (bool_decide (length (flippedCards w) = 2%nat)
            || bool_decide (index ∈ flippedCards w)) eqn:Hguard; [by left|].
  apply orb_false_iff in Hguard as [Hlen Hsel].
  apply bool_decide_eq_false in Hlen, Hsel.
  destruct (card_at (cards w) index) as [c|] eqn:Hc; [|by right; left].
  case_bool_decide as Hm; [by left|].
  right; right. exists c. do 4 (split; [done|]). cbn zeta.
  destruct (flippedCards w ++ [index]) as [|a [|b [|? ?]]]; try by left.
  destruct (card_at (cards w) a), (card_at (cards w) b); try by left.
  case_decide; right; by eexists.
Qed.

Lemma gameCards_elem m pool c :
  c ∈ gameCards m pool ↔
  ∃ item, item ∈ pool ∧ (c = termCard item ∨ c = matchCard m item).
Proof.
  induction pool as [|item rest IH]; simpl.
  - split; [by intros ?%elem_of_nil|by intros (? & ?%elem_of_nil & _)].
  - rewrite !elem_of_cons, IH. split.
    + intros [->|[->|(it & Hit & Hc)]].
      * exists item. split; [by left|by left].
      * exists item. split; [by left|by right].
      * exists it. split; [by right|done].
    + intros (it & [->|Hit]%elem_of_cons & Hc).
      * destruct Hc as [->| ->]; [by left|by right; left].
      * right; right. by exists it.
Qed.

(** *** Strings with a suffix *)

Lemma list_ascii_append s t :
  list_ascii_of_string (s +:+ t)
  = list_ascii_of_string s ++ list_ascii_of_string t.
Proof. induction s as [|a s IH]; simpl; [done|]. by rewrite IH. Qed.

Lemma list_ascii_length s : length (list_ascii_of_string s) = String.length s.
Proof. induction s as [|a s IH]; simpl; [done|]. by rewrite IH. Qed.

Lemma list_ascii_inj s t :
  list_ascii_of_string s = list_ascii_of_string t → s = t.
Proof.
  intros H. rewrite <- (string_of_list_ascii_of_string s),
              <- (string_of_list_ascii_of_string t). by rewrite H.
Qed.

Lemma append_suffix_inj s1 s2 t1 t2 :
  String.length t1 = String.length t2 →
  s1 +:+ t1 = s2 +:+ t2 → s1 = s2 ∧ t1 = t2.
Proof.
  intros Hlen Heq. apply (f_equal list_ascii_of_string) in Heq.
  rewrite !list_ascii_append in Heq.
  apply app_inj_2 in Heq as [H1 H2]; [|by rewrite !list_ascii_length].
  split; by apply list_ascii_inj.
Qed.

(** Two cards made by [initGame] have the same [uniqueId] only if they are
    of the same type and made from entries with the same id. *)
Lemma uniqueId_made m m' item item' c c' :
  c = termCard item ∨ c = matchCard m item →
  c' = termCard item' ∨ c' = matchCard m' item' →
  uniqueId c = uniqueId c' → id item = id item' ∧ type c = type c'.
Proof.
  intros [->| ->] [->| ->]; simpl; intros Heq;
    apply append_suffix_inj in Heq as [? Hsuf]; try done.
Qed.

Lemma gameCards_uniqueIds m pool :
  NoDup (id <$> pool) → NoDup (uniqueId <$> gameCards m pool).
Proof.
  induction pool as [|item rest IH]; simpl; [constructor|].
  rewrite NoDup_cons. intros [Hfresh Hnd].
  assert (Hout : ∀ c, c = termCard item ∨ c = matchCard m item →
                      uniqueId c ∉ uniqueId <$> gameCards m rest).
  { intros c Hc (c' & Heq & Hc')%list_elem_of_fmap.
    apply gameCards_elem in Hc' as (item' & Hitem' & Hc').
    destruct (uniqueId_made m m item item' c c' Hc Hc' Heq) as [Hid _].
    apply Hfresh. rewrite Hid. apply list_elem_of_fmap. by exists item'. }
  constructor; [|constructor; [|by apply IH]].
  - rewrite not_elem_of_cons. split; [|apply (Hout (termCard item)); by left].
    intros Heq.
    by destruct (uniqueId_made m m item item (termCard item)
                   (matchCard m item) (or_introl eq_refl)
                   (or_intror eq_refl) Heq).
  - apply (Hout (matchCard m item)). by right.
Qed.

Section AppMore.

Context (VOCABULARY : GameList → list VocabItem) (ListA : GameList).

Local Abbreviation initGame := (initGame VOCABULARY).
Local Abbreviation handle := (handle VOCABULARY).
Local Abbreviation dispatch := (dispatch VOCABULARY).
Local Abbreviation run := (run VOCABULARY).
Local Abbreviation reachable := (reachable VOCABULARY ListA).
Local Abbreviation initialWorld := (initialWorld ListA).

(** One event leaves the selection, empties it, or appends one index that
    was not in it. *)
Lemma flipped_dispatch e w :
  flippedCards (dispatch e w) = flippedCards w ∨
  flippedCards (dispatch e w) = [] ∨
  ∃ i, (i ∉ flippedCards w) ∧
       flippedCards (dispatch e w) = flippedCards w ++ [i].
Proof.
  unfold dispatch.
  destruct (commit_core w (world_of (handle e w))) as (_&_&->&_).
  destruct e; simpl; try by left.
  - by right; left.
  - destruct (handleCardClick_cases index w)
      as [->|[->|(c & _ & Hsel & _ & _ & [->| [cb ->]])]];
      try by left.
    + right; right. by exists index.
    + right; right. by exists index.
  - destruct (timeouts w !! k) as [[muted deck newFlipped|muted]|];
      simpl; try by left.
    + destruct (newFlipped !! 0%nat ≫= card_at deck); simpl.
      * by right; left.
      * left. by destruct muted.
    + by right; left.
Qed.

Lemma reachable_flipped_NoDup w : reachable w → NoDup (flippedCards w).
Proof.
  induction 1 as [|w e _ IH _]; [constructor|].
  destruct (flipped_dispatch e w) as [->|[->|(i & Hi & ->)]];
    [done|constructor|].
  apply NoDup_app. split; [done|]. split; [|apply NoDup_singleton].
  by intros x Hx ->%list_elem_of_singleton.
Qed.

(** X1. In every world reachable through the page at most two cards are
    selected, the selected indices are distinct, lie inside the deck and
    belong to cards that are not matched yet; at most one resolution
    callback is pending, and one is pending exactly while two cards are
    selected. *)
Theorem selection_wellformed w :
  reachable w →
  (length (flippedCards w) ≤ 2)%nat ∧
  NoDup (flippedCards w) ∧
  (∀ i, i ∈ flippedCards w →
        0 ≤ i < Z.of_nat (length (cards w)) ∧
        ∃ c, card_at (cards w) i = Some c ∧
             vocabId c ∉ matchedPairs (gameState w)) ∧
  (length (timeouts w) ≤ 1)%nat ∧
  (length (flippedCards w) = 2%nat ↔ timeouts w ≠ []).
Proof.
  intros Hw. pose proof (reachable_Inv _ _ w Hw) as HI.
  split; [|split; [by apply reachable_flipped_NoDup|split]].
  - destruct (Inv_shapes w HI) as [[-> _]|[(a & -> & _)|(a & b & cb & -> & _)]];
      simpl; lia.
  - intros i Hi. destruct (inv_flipped w HI i Hi) as (c & Hc & Hfresh).
    split; [by apply card_at_Some in Hc as [? _]|by exists c].
  - destruct (Inv_shapes w HI)
      as [[-> ->]|[(a & -> & ->)|(a & b & cb & -> & -> & _)]];
      simpl; (split; [lia|]); split; try done; lia.
Qed.

(** *** The deck *)

Lemma session_or_start e :
  in_session e ∨ ∃ sp sc, e = StartTraining sp sc.
Proof. destruct e; simpl; eauto. Qed.

Lemma handleCardClick_cards index w :
  cards (world_of (handleCardClick index w)) = cards w.
Proof.
  destruct (handleCardClick_cases index w)
    as [->|[->|(c & _ & _ & _ & _ & [->| [cb ->]])]]; try done.
  - simpl. apply unlessMuted_core.
  - simpl. apply unlessMuted_core.
Qed.

Lemma handle_cards e w :
  in_session e → cards (world_of (handle e w)) = cards w.
Proof.
  destruct e; simpl; try done; intros _.
  - apply handleCardClick_cards.
  - destruct (timeouts w !! k) as [[muted deck newFlipped|muted]|]; simpl;
      try done.
    + destruct (newFlipped !! 0%nat ≫= card_at deck); by destruct muted.
    + by destruct muted.
Qed.

(** The fields that say which deck is to be dealt change on the setup form
    only. *)
Lemma handle_settings e w :
  isGameStarted (gameState w) = true →
  enabled e w → in_session e →
  let g := gameState w in
  let g' := gameState (world_of (handle e w)) in
  selectedList g' = selectedList g ∧ difficulty g' = difficulty g ∧
  mode g' = mode g ∨ isGameStarted g' = false.
Proof.
  intros Hst Hen Hses. cbn zeta.
  destruct e; simpl in *; try done; try (by left);
    try (unfold onSetup in Hen; congruence).
  - rewrite handleCardClick_gameState. by left.
  - destruct (timeouts w !! k) as [[muted deck newFlipped|muted]|]; simpl;
      try by left.
    + destruct (newFlipped !! 0%nat ≫= card_at deck); destruct muted;
        by left.
    + destruct muted; by left.
Qed.

Lemma handle_mode e w :
  mode (gameState (world_of (handle e w))) = mode (gameState w).
Proof.
  destruct e; simpl; try done.
  - by rewrite handleCardClick_gameState.
  - destruct (timeouts w !! k) as [[muted deck newFlipped|muted]|]; simpl;
      try done.
    + destruct (newFlipped !! 0%nat ≫= card_at deck); by destruct muted.
    + by destruct muted.
Qed.

Lemma initGame_dealt sp sc w :
  fair sp → fair sc →
  dealt VOCABULARY (selectedList (gameState w)) (difficulty (gameState w))
        (mode (gameState w)) (cards (initGame sp sc w)).
Proof.
  intros Hsp Hsc. simpl.
  exists (take (wordCount (difficulty (gameState w)))
               (sp (VOCABULARY (selectedList (gameState w))))).
  split; [|split].
  - rewrite <- (Hsp (VOCABULARY _)) at 2.
    apply sublist_submseteq, sublist_take.
  - by rewrite length_take, (Permutation_length (Hsp _)).
  - by apply buildDeck_perm.
Qed.

(** The mode is never changed: the page has no control for it. *)
Lemma reachable_mode w : reachable w → mode (gameState w) = EnglishToArabic.
Proof.
  induction 1 as [|w e _ IH _]; [done|].
  unfold dispatch.
  destruct (commit_core w (world_of (handle e w))) as (->&_).
  by rewrite handle_mode.
Qed.

(** While a session is running the deck is the one dealt from the selected
    list at the selected difficulty. *)
Lemma reachable_dealt w :
  reachable w → isGameStarted (gameState w) = true →
  dealt VOCABULARY (selectedList (gameState w)) (difficulty (gameState w))
        (mode (gameState w)) (cards w).
Proof.
  induction 1 as [|w e Hw IH Hen]; [done|].
  unfold dispatch.
  destruct (commit_core w (world_of (handle e w))) as (->&->&_).
  destruct (session_or_start e) as [Hses|(sp & sc & ->)].
  - intros Hst'. rewrite handle_cards by done.
    destruct (isGameStarted (gameState w)) eqn:Hst.
    + destruct (handle_settings e w Hst Hen Hses) as [(-> & -> & ->)|Hno];
        [by apply IH|congruence].
    + (* on the setup form nothing but the start button starts a session *)
      destruct e; simpl in *; try done; try congruence.
      * destruct Hen; congruence.
      * pose proof (reachable_Inv _ _ w Hw) as HI.
        pose proof (inv_rest w HI (or_introl Hst)) as Hfl.
        pose proof (inv_pending w HI) as Hp. unfold pending_ok in Hp.
        rewrite Hfl in Hp. rewrite Hp in Hen. simpl in Hen. lia.
  - intros _. destruct Hen as (_ & _ & _ & Hsp & Hsc).
    exact (initGame_dealt sp sc w Hsp Hsc).
Qed.

(** Whatever has happened, the deck is empty (no session yet) or was dealt
    from some list at some difficulty. *)
Lemma reachable_deck_shape w :
  reachable w →
  cards w = [] ∨ ∃ l d, dealt VOCABULARY l d EnglishToArabic (cards w).
Proof.
  induction 1 as [|w e Hw IH Hen]; [by left|].
  unfold dispatch.
  destruct (commit_core w (world_of (handle e w))) as (_&->&_).
  destruct (session_or_start e) as [Hses|(sp & sc & ->)].
  - by rewrite handle_cards.
  - right. destruct Hen as (_ & _ & _ & Hsp & Hsc).
    exists (selectedList (gameState w)), (difficulty (gameState w)).
    rewrite <- (reachable_mode w Hw).
    exact (initGame_dealt sp sc w Hsp Hsc).
Qed.

(** What the pending callback does when it fires, in a world that satisfies
    the invariant. *)
Lemma resolution_outcome w k :
  Inv w → (k < length (timeouts w))%nat →
  ∃ a b c0 c1 muted,
    flippedCards w = [a; b] ∧
    card_at (cards w) a = Some c0 ∧ card_at (cards w) b = Some c1 ∧
    handle (TimeoutFires k) w =
    Done (if decide (vocabId c0 = vocabId c1)
          then setFlippedCards []
                 (setGameState
                    (λ prev,
                       withMatch (matchedPairs prev ++ [vocabId c0])
                                 (score prev + 10)
                                 (allMatched (matchedPairs prev ++ [vocabId c0])
                                             (cards w)) prev)
                    (unlessMuted muted MatchSound (setTimeouts [] w)))
          else setFlippedCards []
                 (unlessMuted muted ErrorSound (setTimeouts [] w))).
Proof.
  intros HI Hk.
  destruct (Inv_shapes w HI) as [[_ Hts]|[(a&_&Hts)|(a&b&cb&Hfl&Hts&Hr)]];
    try (rewrite Hts in Hk; simpl in Hk; lia).
  rewrite Hts in Hk. simpl in Hk. assert (k = 0%nat) as -> by lia.
  destruct Hr as (c0 & c1 & Hc0 & Hc1 & Hcb).
  exists a, b, c0, c1.
  unfold handle. rewrite Hts. simpl.
  destruct (decide (vocabId c0 = vocabId c1)); destruct Hcb as [muted ->];
    exists muted; repeat split; try done.
  simpl. by rewrite Hc0.
Qed.

Lemma reachable_matched_in_deck w :
  reachable w →
  ∀ v, v ∈ matchedPairs (gameState w) → v ∈ vocabId <$> cards w.
Proof.
  induction 1 as [|w e Hw IH Hen]; [by intros v Hv%elem_of_nil|].
  pose proof (reachable_Inv _ _ w Hw) as HI.
  unfold dispatch.
  destruct (commit_core w (world_of (handle e w))) as (->&->&_).
  destruct e; simpl; try done.
  - by intros v Hv%elem_of_nil.
  - by rewrite handleCardClick_gameState, handleCardClick_cards.
  - destruct (decide (k < length (timeouts w))%nat) as [Hk|Hk].
    + destruct (resolution_outcome w k HI Hk)
        as (a & b & c0 & c1 & muted & _ & Hc0 & _ & Hrun).
      simpl in Hrun. rewrite Hrun. simpl.
      destruct (decide (vocabId c0 = vocabId c1)); destruct muted; simpl;
        try done.
      all: intros v [Hv| ->%list_elem_of_singleton]%elem_of_app; [by apply IH|].
      all: apply list_elem_of_fmap; exists c0; split; [done|].
      all: by apply card_at_Some in Hc0 as (_ & _ & ?).
    + rewrite lookup_ge_None_2 by lia. done.
Qed.

Lemma submseteq_NoDup {A} (l k : list A) : NoDup k → l ⊆+ k → NoDup l.
Proof.
  intros Hk (k' & Hperm)%submseteq_Permutation.
  rewrite Hperm in Hk. by apply NoDup_app in Hk as (? & _).
Qed.

(** The ids of a dealt deck: those of its pool, each on two cards. *)
Lemma dealt_ids l d m deck :
  (∀ l, NoDup (id <$> VOCABULARY l)) → dealt VOCABULARY l d m deck →
  ∃ ids, NoDup ids ∧ length deck = (2 * length ids)%nat ∧
         ∀ v, v ∈ vocabId <$> deck ↔ v ∈ ids.
Proof.
  intros Hdistinct (pool & Hsub & _ & Hperm).
  exists (id <$> pool). split; [|split].
  - apply (submseteq_NoDup _ (id <$> VOCABULARY l)); [done|].
    by apply fmap_submseteq.
  - by rewrite Hperm, gameCards_length, length_fmap.
  - intros v. rewrite Hperm. apply gameCards_vocabIds.
Qed.

(** X2. In every world reachable through the page every matched vocab id is
    the id of a card of the current deck; when the ids of every vocabulary
    list are distinct, at most half as many ids are matched as the deck has
    cards, and the score lies between 0 and five points per card. *)
Theorem matched_in_deck w :
  reachable w →
  (∀ v, v ∈ matchedPairs (gameState w) → v ∈ vocabId <$> cards w) ∧
  ((∀ l, NoDup (id <$> VOCABULARY l)) →
   (2 * length (matchedPairs (gameState w)) ≤ length (cards w))%nat ∧
   0 ≤ score (gameState w) ≤ 5 * Z.of_nat (length (cards w))).
Proof.
  intros Hw. pose proof (reachable_Inv _ _ w Hw) as HI.
  split; [by apply reachable_matched_in_deck|]. intros Hdistinct.
  rewrite (inv_score w HI).
  destruct (reachable_deck_shape w Hw) as [Hnil|(l & d & Hdealt)].
  - pose proof (reachable_matched_in_deck w Hw) as Hin. rewrite Hnil in Hin.
    destruct (matchedPairs (gameState w)) as [|v ?]; [simpl; lia|].
    specialize (Hin v). rewrite elem_of_cons in Hin.
    by destruct (elem_of_nil v) as [Hno _]; destruct Hno; apply Hin; left.
  - destruct (dealt_ids _ _ _ _ Hdistinct Hdealt) as (ids & Hnd & Hlen & Hids).
    assert (Hsub : matchedPairs (gameState w) ⊆+ ids).
    { apply NoDup_submseteq; [apply HI|].
      intros v Hv. apply Hids. by apply reachable_matched_in_deck. }
    pose proof (submseteq_length _ _ Hsub) as Hle. lia.
Qed.

Lemma reachable_over_iff w :
  (∀ l, NoDup (id <$> VOCABULARY l)) → reachable w → cards w ≠ [] →
  isGameOver (gameState w) = true ↔
  ∀ c, c ∈ cards w → vocabId c ∈ matchedPairs (gameState w).
Proof.
  intros Hdistinct Hw Hdeck.
  pose proof (reachable_Inv _ _ w Hw) as HI.
  destruct (reachable_deck_shape w Hw) as [?|(l & d & Hdealt)]; [done|].
  destruct (dealt_ids _ _ _ _ Hdistinct Hdealt) as (ids & Hnd & Hlen & Hids).
  destruct (inv_over w HI) as [[? _]|Hover]; [done|].
  assert (Hsub : matchedPairs (gameState w) ⊆+ ids).
  { apply NoDup_submseteq; [apply HI|].
    intros v Hv. apply Hids. by apply reachable_matched_in_deck. }
  pose proof (submseteq_length _ _ Hsub) as Hle.
  rewrite Hover. unfold allMatched. rewrite bool_decide_eq_true.
  split.
  - intros Hall c Hc.
    assert (Hperm : matchedPairs (gameState w) ≡ₚ ids)
      by (apply submseteq_length_Permutation; [done|lia]).
    rewrite Hperm. apply Hids, list_elem_of_fmap. by exists c.
  - intros Hall.
    assert (Hsup : ids ⊆+ matchedPairs (gameState w)).
    { apply NoDup_submseteq; [done|].
      intros v (c & -> & Hc)%Hids%list_elem_of_fmap. by apply Hall. }
    pose proof (submseteq_length _ _ Hsup). lia.
Qed.

(** X3. When the ids of every vocabulary list are distinct, then in every
    reachable world with a non-empty deck the game-over flag is set exactly
    when no card is left to match: every card of the deck carries a matched
    id.  The score is then five points per card of the deck. *)
Theorem over_iff_no_card_left w :
  (∀ l, NoDup (id <$> VOCABULARY l)) → reachable w → cards w ≠ [] →
  (isGameOver (gameState w) = true ↔
   ∀ c, c ∈ cards w → vocabId c ∈ matchedPairs (gameState w)) ∧
  (isGameOver (gameState w) = true →
   score (gameState w) = 5 * Z.of_nat (length (cards w))).
Proof.
  intros Hdistinct Hw Hdeck. split; [by apply reachable_over_iff|].
  pose proof (reachable_Inv _ _ w Hw) as HI.
  destruct (inv_over w HI) as [[? _]|Hover]; [done|].
  rewrite Hover, (inv_score w HI). unfold allMatched.
  rewrite bool_decide_eq_true. lia.
Qed.

(** X4. While a session is running the mode is English-to-Arabic (the page
    never changes it) and the deck is the one dealt from the list and at the
    difficulty that are selected: it has twice [min count |list|] cards, and
    each card is the term card of an entry of that list, showing the entry,
    or its match card, showing the Arabic meaning and flagged as Arabic. *)
Theorem deck_comes_from_selected_list w :
  reachable w → isGameStarted (gameState w) = true →
  let g := gameState w in
  mode g = EnglishToArabic ∧
  length (cards w) =
    (2 * (wordCount (difficulty g) `min` length (VOCABULARY (selectedList g))))%nat ∧
  ∀ c, c ∈ cards w →
    ∃ item, item ∈ VOCABULARY (selectedList g) ∧ vocabId c = id item ∧
      ((type c = term ∧ content c = entry item ∧ isArabic c = None) ∨
       (type c = match_ ∧ content c = meaningArabic item ∧
        isArabic c = Some true)).
Proof.
  intros Hw Hst. cbn zeta.
  pose proof (reachable_mode w Hw) as Hmode.
  destruct (reachable_dealt w Hw Hst) as (pool & Hsub & Hlen & Hperm).
  split; [done|]. split.
  - by rewrite Hperm, gameCards_length, Hlen.
  - intros c Hc. rewrite Hperm in Hc.
    apply gameCards_elem in Hc as (item & Hitem & Hc).
    exists item. split; [by eapply elem_of_submseteq|].
    rewrite Hmode in Hc. destruct Hc as [->| ->]; (split; [done|]).
    + by left.
    + by right.
Qed.

(** *** The timer *)

Lemma dispatch_timer e w :
  in_session e →
  timer (gameState (dispatch e w)) =
  timer (gameState w) + match e with Tick => 1 | _ => 0 end.
Proof.
  intros Hses. unfold dispatch.
  destruct (commit_core w (world_of (handle e w))) as (->&_).
  destruct e; simpl in *; try done; try lia.
  - rewrite handleCardClick_gameState. lia.
  - destruct (timeouts w !! k) as [[muted deck newFlipped|muted]|]; simpl;
      try lia.
    + destruct (newFlipped !! 0%nat ≫= card_at deck); destruct muted; simpl;
        lia.
    + destruct muted; simpl; lia.
Qed.

(** In terms of the world, a click on the start button is the event
    [StartTraining] when [initAudio] returns, and nothing at all when the
    constructor of the context throws. *)
Lemma dispatchStart_cases br sp sc w h :
  dispatchStart VOCABULARY br sp sc w h =
  match audioCtx h, newAudioContext br with
  | Some _, _ => (dispatch (StartTraining sp sc) w, h)
  | None, Returns st =>
      (dispatch (StartTraining sp sc) w,
       mkAudioHook (Some st) (calls h) (warnings h) (laterTones h))
  | None, Throws _ => (w, h)
  end.
Proof.
  unfold dispatchStart, initGameWithAudio, mbind, Snd_bind, initAudio.
  destruct (audioCtx h); [done|]. by destruct (newAudioContext br).
Qed.

(** With the sound hook in the loop the page reaches the same worlds: a
    click on the start button leads to a reachable world whether
    [initAudio] returns or throws. *)
Lemma reachable_dispatchStart br sp sc w h :
  reachable w → enabled (StartTraining sp sc) w →
  reachable (dispatchStart VOCABULARY br sp sc w h).1.
Proof.
  intros Hw Hen. rewrite dispatchStart_cases.
  destruct (audioCtx h); [by apply reachable_dispatch|].
  destruct (newAudioContext br); [by apply reachable_dispatch|done].
Qed.

(** X5. Over any run of session events (clicks, timeouts, ticks, the mute
    button, the form fields, settled requests, the return to the form) the
    timer grows by exactly the number of ticks in the run; no other event
    touches it.  A click on the start button sets it to zero, so that the
    run ends with the timer at the number of its ticks, when the audio
    context exists already or its constructor returns; when the constructor
    throws the click changes neither the world nor the ref, and the timer
    goes on from where it was. *)
Theorem timer_counts_ticks es w :
  Forall in_session es →
  timer (gameState (run es w)) = timer (gameState w) + Z.of_nat (ticks es) ∧
  ∀ br sp sc h,
    let after := dispatchStart VOCABULARY br sp sc w h in
    (audioCtx h ≠ None ∨ (∃ st, newAudioContext br = Returns st) →
     after.1 = dispatch (StartTraining sp sc) w ∧
     audioCtx after.2 ≠ None ∧
     timer (gameState (run es after.1)) = Z.of_nat (ticks es)) ∧
    (audioCtx h = None → (∃ err, newAudioContext br = Throws err) →
     after = (w, h) ∧
     timer (gameState (run es after.1))
     = timer (gameState w) + Z.of_nat (ticks es)).
Proof.
  intros Hes.
  assert (Hrun : ∀ w0, timer (gameState (run es w0))
                       = timer (gameState w0) + Z.of_nat (ticks es)).
  { induction Hes as [|e es He _ IH]; intros w0; simpl; [lia|].
    rewrite IH, (dispatch_timer e w0 He). destruct e; simpl; lia. }
  split; [apply Hrun|]. intros br sp sc h. cbn zeta.
  rewrite dispatchStart_cases.
  assert (Hzero : timer (gameState (run es (dispatch (StartTraining sp sc) w)))
                  = Z.of_nat (ticks es)).
  { rewrite Hrun. unfold dispatch.
    destruct (commit_core w (world_of (handle (StartTraining sp sc) w)))
      as (->&_).
    simpl. lia. }
  split.
  - intros Hok. destruct (audioCtx h) as [st|] eqn:Hctx; simpl.
    + by rewrite Hctx.
    + destruct Hok as [Hok|[st Hst]]; [done|]. rewrite Hst. done.
  - intros Hctx [err Herr]. rewrite Hctx, Herr. simpl. split; [done|].
    apply Hrun.
Qed.

(** *** One turn: two clicks and the callback *)

Lemma dispatch_click index w :
  dispatch (CardClick index) w = world_of (handleCardClick index w).
Proof.
  unfold dispatch, commit. simpl.
  by rewrite handleCardClick_gameState, bool_decide_eq_true_2.
Qed.

Lemma click_first w a c :
  flippedCards w = [] → card_at (cards w) a = Some c →
  vocabId c ∉ matchedPairs (gameState w) →
  handleCardClick a w
  = Done (setFlippedCards [a] (unlessMuted (isMuted w) FlipSound w)).
Proof.
  intros Hfl Hc Hfresh. unfold handleCardClick. rewrite Hfl, Hc.
  rewrite (bool_decide_eq_false_2 (a ∈ [])) by (by intros ?%elem_of_nil).
  rewrite (bool_decide_eq_false_2 _ Hfresh). done.
Qed.

Lemma click_second w a b ca cb :
  flippedCards w = [a] → a ≠ b →
  card_at (cards w) a = Some ca → card_at (cards w) b = Some cb →
  vocabId cb ∉ matchedPairs (gameState w) →
  handleCardClick b w
  = Done (setTimeout
            (if decide (vocabId ca = vocabId cb)
             then MatchResolution (isMuted w) (cards w) [a; b]
             else MismatchResolution (isMuted w))
            (setFlippedCards [a; b] (unlessMuted (isMuted w) FlipSound w))).
Proof.
  intros Hfl Hab Hca Hcb Hfresh. unfold handleCardClick.
  rewrite Hfl, Hcb.
  rewrite (bool_decide_eq_false_2 (b ∈ [a]))
    by (by intros ?%list_elem_of_singleton).
  rewrite (bool_decide_eq_false_2 _ Hfresh). simpl.
  rewrite Hca, Hcb. by case_decide.
Qed.

Lemma click_locked w i :
  length (flippedCards w) = 2%nat → dispatch (CardClick i) w = w.
Proof.
  intros Hlen. rewrite dispatch_click. unfold handleCardClick.
  by rewrite (bool_decide_eq_true_2 _ Hlen).
Qed.

(** The world after two accepted clicks on an empty selection. *)
Lemma two_clicks w a b ca cb :
  flippedCards w = [] →
  card_at (cards w) a = Some ca → card_at (cards w) b = Some cb → a ≠ b →
  vocabId ca ∉ matchedPairs (gameState w) →
  vocabId cb ∉ matchedPairs (gameState w) →
  run [CardClick a; CardClick b] w
  = setTimeout
      (if decide (vocabId ca = vocabId cb)
       then MatchResolution (isMuted w) (cards w) [a; b]
       else MismatchResolution (isMuted w))
      (setFlippedCards [a; b]
         (unlessMuted (isMuted w) FlipSound
            (setFlippedCards [a] (unlessMuted (isMuted w) FlipSound w)))).
Proof.
  intros Hfl Hca Hcb Hab Hfa Hfb.
  change (run [CardClick a; CardClick b] w)
    with (dispatch (CardClick b) (dispatch (CardClick a) w)).
  rewrite (dispatch_click a w), (click_first w a ca) by done.
  cbn [world_of]. rewrite dispatch_click.
  set (w1 := setFlippedCards [a] (unlessMuted (isMuted w) FlipSound w)).
  assert (Hw1 : gameState w1 = gameState w ∧ cards w1 = cards w ∧
                isMuted w1 = isMuted w).
  { unfold w1. simpl. by destruct (unlessMuted_core (isMuted w) FlipSound w)
      as (-> & -> & _ & _ & -> & _). }
  destruct Hw1 as (Hg & Hc & Hm).
  rewrite (click_second w1 a b ca cb); rewrite ?Hg, ?Hc, ?Hm; done.
Qed.

(** X6. A mismatch is a round trip.  From a world with nothing selected and
    nothing pending, clicking two different cards whose vocab ids differ and
    are not matched selects both and locks the board (every further click
    is ignored); when the callback fires, the world is what it was before the
    two clicks, up to the sounds played, and each of the two cards can be
    selected again. *)
Theorem mismatch_round_trip w a b ca cb :
  flippedCards w = [] → timeouts w = [] →
  card_at (cards w) a = Some ca → card_at (cards w) b = Some cb → a ≠ b →
  vocabId ca ∉ matchedPairs (gameState w) →
  vocabId cb ∉ matchedPairs (gameState w) →
  vocabId ca ≠ vocabId cb →
  let w2 := run [CardClick a; CardClick b] w in
  let w3 := dispatch (TimeoutFires 0) w2 in
  flippedCards w2 = [a; b] ∧
  (∀ i, dispatch (CardClick i) w2 = w2) ∧
  silent w3 = silent w ∧ isMuted w3 = isMuted w ∧
  audio w3 = audio w ++
             (if isMuted w then [] else [FlipSound; FlipSound; ErrorSound]) ∧
  flippedCards (dispatch (CardClick a) w3) = [a] ∧
  flippedCards (dispatch (CardClick b) w3) = [b].
Proof.
  intros Hfl Hts Hca Hcb Hab Hfa Hfb Hne. cbn zeta.
  rewrite (two_clicks w a b ca cb) by done.
  rewrite decide_False by done.
  set (w2 := setTimeout _ _).
  assert (Hlen : length (flippedCards w2) = 2%nat) by done.
  split; [done|]. split; [intros i; by apply click_locked|].
  assert (Hw3 : dispatch (TimeoutFires 0) w2
                = setFlippedCards []
                    (unlessMuted (isMuted w) ErrorSound
                       (setTimeouts [] w2))).
  { unfold dispatch, commit, handle.
    assert (timeouts w2 = [MismatchResolution (isMuted w)]) as ->.
    { unfold w2. simpl.
      destruct (unlessMuted_core (isMuted w) FlipSound
                  (setFlippedCards [a]
                     (unlessMuted (isMuted w) FlipSound w)))
        as (_ & _ & _ & -> & _).
      simpl.
      destruct (unlessMuted_core (isMuted w) FlipSound w)
        as (_ & _ & _ & -> & _).
      by rewrite Hts. }
    simpl. rewrite bool_decide_eq_true_2; [done|].
    by destruct (isMuted w). }
  rewrite Hw3. clear Hw3.
  set (w3 := setFlippedCards [] _).
  assert (Hfields : flippedCards w3 = [] ∧ cards w3 = cards w ∧
                    gameState w3 = gameState w).
  { unfold w3, w2. by destruct (isMuted w). }
  destruct Hfields as (Hf3 & Hc3 & Hg3).
  assert (Hagain : ∀ i c, card_at (cards w) i = Some c →
                          vocabId c ∉ matchedPairs (gameState w) →
                          flippedCards (dispatch (CardClick i) w3) = [i]).
  { intros i c Hc Hfresh.
    rewrite dispatch_click, (click_first w3 i c); rewrite ?Hc3, ?Hg3; done. }
  split; [|split; [|split; [|split]]].
  - unfold w3, w2. destruct w as [g mu cs fl st ts fe au po].
    simpl in *. subst fl ts. destruct mu; reflexivity.
  - unfold w3, w2. by destruct (isMuted w) eqn:Hm.
  - unfold w3, w2. destruct w as [g mu cs fl st ts fe au po].
    simpl in *. destruct mu; simpl; [by rewrite app_nil_r|].
    by rewrite <- !app_assoc.
  - by apply (Hagain a ca).
  - by apply (Hagain b cb).
Qed.

(** X7. A match scores once.  From a world with nothing selected and nothing
    pending, clicking two different cards that carry the same unmatched vocab
    id and letting the callback fire appends that id to the matched ids, adds
    ten points, leaves deck and timer alone, empties the selection, leaves no
    callback pending and sets the game-over flag iff twice the number of
    matched ids is now the length of the deck; from then on a click on either
    card is ignored. *)
Theorem match_turn w a b ca cb :
  flippedCards w = [] → timeouts w = [] →
  card_at (cards w) a = Some ca → card_at (cards w) b = Some cb → a ≠ b →
  vocabId ca ∉ matchedPairs (gameState w) →
  vocabId ca = vocabId cb →
  let w3 := run [CardClick a; CardClick b; TimeoutFires 0] w in
  let g := gameState w in
  let g3 := gameState w3 in
  matchedPairs g3 = matchedPairs g ++ [vocabId ca] ∧
  score g3 = score g + 10 ∧ timer g3 = timer g ∧
  isGameOver g3 = allMatched (matchedPairs g ++ [vocabId ca]) (cards w) ∧
  cards w3 = cards w ∧ flippedCards w3 = [] ∧ timeouts w3 = [] ∧
  dispatch (CardClick a) w3 = w3 ∧ dispatch (CardClick b) w3 = w3.
Proof.
  intros Hfl Hts Hca Hcb Hab Hfa Heq. cbn zeta.
  assert (Hfb : vocabId cb ∉ matchedPairs (gameState w)) by by rewrite <- Heq.
  change (run [CardClick a; CardClick b; TimeoutFires 0] w)
    with (dispatch (TimeoutFires 0) (run [CardClick a; CardClick b] w)).
  rewrite (two_clicks w a b ca cb) by done.
  rewrite decide_True by done.
  set (w2 := setTimeout _ _).
  assert (Hts2 : timeouts w2 = [MatchResolution (isMuted w) (cards w) [a; b]]).
  { unfold w2. simpl.
    destruct (unlessMuted_core (isMuted w) FlipSound
                (setFlippedCards [a] (unlessMuted (isMuted w) FlipSound w)))
      as (_ & _ & _ & -> & _).
    simpl.
    destruct (unlessMuted_core (isMuted w) FlipSound w)
      as (_ & _ & _ & -> & _).
    by rewrite Hts. }
  assert (Hcore : gameState w2 = gameState w ∧ cards w2 = cards w).
  { unfold w2. simpl.
    destruct (unlessMuted_core (isMuted w) FlipSound
                (setFlippedCards [a] (unlessMuted (isMuted w) FlipSound w)))
      as (-> & -> & _).
    simpl.
    by destruct (unlessMuted_core (isMuted w) FlipSound w) as (-> & -> & _). }
  destruct Hcore as [Hg2 Hc2].
  set (w3 := dispatch (TimeoutFires 0) w2).
  assert (Hw3 : gameState w3
                = withMatch (matchedPairs (gameState w) ++ [vocabId ca])
                            (score (gameState w) + 10)
                            (allMatched (matchedPairs (gameState w)
                                         ++ [vocabId ca]) (cards w))
                            (gameState w) ∧
                cards w3 = cards w ∧ flippedCards w3 = [] ∧
                timeouts w3 = []).
  { unfold w3, dispatch.
    destruct (commit_core w2 (world_of (handle (TimeoutFires 0) w2)))
      as (-> & -> & -> & -> & _).
    unfold handle. rewrite Hts2. simpl. rewrite Hca. simpl.
    destruct (isMuted w); simpl; rewrite ?Hg2, ?Hc2; done. }
  destruct Hw3 as (Hg3 & Hc3 & Hf3 & Ht3).
  rewrite Hg3, Hc3, Hf3, Ht3. simpl.
  do 7 (split; [done|]).
  assert (Hignored : ∀ i c, card_at (cards w) i = Some c →
                            vocabId c = vocabId ca →
                            dispatch (CardClick i) w3 = w3).
  { intros i c Hc Hv. rewrite dispatch_click. unfold handleCardClick.
    rewrite Hf3, Hc3, Hc, Hg3.
    rewrite (bool_decide_eq_false_2 (i ∈ [])) by (by intros ?%elem_of_nil).
    simpl. rewrite bool_decide_eq_true_2; [done|].
    rewrite Hv. apply elem_of_app. right. by apply list_elem_of_singleton. }
  split; [by apply (Hignored a ca)|by apply (Hignored b cb)].
Qed.

(** X8. When the ids of every vocabulary list are distinct, the cards of
    every reachable world have pairwise distinct [uniqueId]s, the keys under
    which the board renders them. *)
Theorem uniqueIds_distinct w :
  (∀ l, NoDup (id <$> VOCABULARY l)) → reachable w →
  NoDup (uniqueId <$> cards w).
Proof.
  intros Hdistinct Hw.
  destruct (reachable_deck_shape w Hw) as [->|(l & d & pool & Hsub & _ & Hperm)];
    [constructor|].
  rewrite Hperm. apply gameCards_uniqueIds.
  apply (submseteq_NoDup _ (id <$> VOCABULARY l)); [done|].
  by apply fmap_submseteq.
Qed.

(** *** Submitting the results *)

Lemma handleCardClick_fetches index w :
  fetches (world_of (handleCardClick index w)) = fetches w.
Proof.
  destruct (handleCardClick_cases index w)
    as [->|[->|(c & _ & _ & _ & _ & [->| [cb ->]])]]; try done.
  - simpl. apply unlessMuted_core.
  - simpl. apply unlessMuted_core.
Qed.

(** Only the start button and a settled request touch the status and the
    number of requests in flight from inside a handler. *)
Lemma handle_net e w :
  let w' := world_of (handle e w) in
  match e with
  | StartTraining _ _ => submitStatus w' = idle ∧ fetches w' = fetches w
  | FetchSettles ok =>
      submitStatus w' = (if ok then success else error) ∧
      fetches w' = pred (fetches w)
  | _ => submitStatus w' = submitStatus w ∧ fetches w' = fetches w
  end.
Proof.
  cbn zeta. destruct e; simpl; try done.
  - split; [apply handleCardClick_net|apply handleCardClick_fetches].
  - destruct (timeouts w !! k) as [[muted deck newFlipped|muted]|]; simpl;
      try done.
    + destruct (newFlipped !! 0%nat ≫= card_at deck); by destruct muted.
    + by destruct muted.
Qed.

(** X9. In every world reachable through the page the status [submitting]
    is backed by a request in flight, so that a settling response will move
    it on, and no more requests are in flight than rows have been posted. *)
Theorem submitting_has_request_in_flight w :
  reachable w →
  (submitStatus w = submitting → (0 < fetches w)%nat) ∧
  (fetches w ≤ length (posted w))%nat.
Proof.
  induction 1 as [|w e _ [IH1 IH2] Hen]; [done|].
  unfold dispatch.
  pose proof (handle_net e w) as Hnet.
  pose proof (handle_posted VOCABULARY e w) as Hpo.
  set (w' := world_of (handle e w)) in *. cbn zeta in Hnet.
  assert (Hw' : (submitStatus w' = submitting → (0 < fetches w')%nat) ∧
                (fetches w' ≤ length (posted w'))%nat).
  { rewrite Hpo. destruct e; destruct Hnet as [-> ->]; try done.
    simpl in Hen. split; [by destruct ok|lia]. }
  clearbody w'. destruct Hw' as [H1 H2].
  unfold commit, overEffect, submitResultToSheet.
  case_bool_decide; [done|].
  destruct (isGameOver (gameState w')); [|done].
  case_bool_decide; [done|]. simpl. rewrite length_app. simpl. lia.
Qed.

(** X10. An event posts at most one row, and it posts one only in the turn
    in which the game-over flag turns from false to true.  The row is the
    record of the finished game: name, class, list, difficulty and mode as
    they stand, the timer as it stands, and a score of five points per card
    of the deck; the status is [submitting] afterwards. *)
Theorem posted_row_is_final_state e w :
  reachable w → enabled e w →
  let w' := dispatch e w in
  posted w' = posted w ∨
  (isGameOver (gameState w) = false ∧ isGameOver (gameState w') = true ∧
   posted w' = posted w ++ [resultRow (gameState w')] ∧
   submitStatus w' = submitting ∧
   score (gameState w') = 5 * Z.of_nat (length (cards w'))).
Proof.
  intros Hw Hen. cbn zeta.
  pose proof (Inv_dispatch VOCABULARY e w (reachable_Inv _ _ w Hw) Hen) as HI'.
  pose proof (posted_dispatch VOCABULARY e w) as Hpost. cbn zeta in Hpost.
  destruct (commit_core w (world_of (handle e w))) as (Hg & _).
  fold (dispatch e w) in Hg. rewrite <- Hg in Hpost.
  case_bool_decide as Hcase; [|left; by rewrite Hpost, app_nil_r].
  right. destruct Hcase as (Hbefore & Hafter & Hs1 & Hs2).
  do 3 (split; [done|]). split.
  - unfold dispatch, commit, overEffect, submitResultToSheet.
    rewrite Hbefore. rewrite Hg in Hafter. rewrite Hafter. simpl.
    rewrite bool_decide_eq_false_2; [done|]. by intros [?|?].
  - rewrite (inv_score _ HI').
    destruct (inv_over _ HI') as [(_ & Hno & _)|Hover]; [congruence|].
    rewrite Hafter in Hover. symmetry in Hover.
    unfold allMatched in Hover. apply bool_decide_eq_true in Hover. lia.
Qed.

(** X11. Submitting is idempotent: however often the effect on the game-over
    flag runs in a row, it posts what it posts the first time.  Only a
    rejected request opens the door again: with the status at [error] (or
    [idle]) the next run posts the row of the current state. *)
Theorem overEffect_idempotent w :
  overEffect (overEffect w) = overEffect w ∧
  submitResultToSheet (submitResultToSheet w) = submitResultToSheet w ∧
  (isGameOver (gameState w) = true →
   submitStatus w = error ∨ submitStatus w = idle →
   posted (overEffect w) = posted w ++ [resultRow (gameState w)] ∧
   submitStatus (overEffect w) = submitting ∧
   fetches (overEffect w) = S (fetches w)).
Proof.
  assert (Hsub : submitResultToSheet (submitResultToSheet w)
                 = submitResultToSheet w).
  { unfold submitResultToSheet at 2.
    case_bool_decide as Hst.
    - unfold submitResultToSheet. by rewrite bool_decide_eq_true_2.
    - unfold submitResultToSheet. simpl.
      by rewrite (bool_decide_eq_false_2 _ Hst). }
  split; [|split; [done|]].
  - unfold overEffect.
    destruct (isGameOver (gameState w)) eqn:Hover; [|by rewrite Hover].
    destruct (submitResultToSheet_core w) as (-> & _).
    by rewrite Hover.
  - intros Hover Hst. unfold overEffect, submitResultToSheet. rewrite Hover.
    rewrite bool_decide_eq_false_2; [done|].
    intros [?|?]; destruct Hst; congruence.
Qed.

(** *** The hint button *)

Lemma hint_service_run env lib word pos io :
  ∃ text io', GeminiService.getVocabHint env lib word pos io
              = (Returns text, io').
Proof.
  unfold GeminiService.getVocabHint.
  destruct (negb _); [by eexists _, _|].
  rewrite guarded_call_run.
  destruct (construct lib _); [by eexists _, _|]. cbn zeta.
  destruct (reply lib _); by eexists _, _.
Qed.

Lemma unmatchedTerms_nil w :
  (∀ c, c ∈ cards w → vocabId c ∈ matchedPairs (gameState w)) →
  unmatchedTerms w = [].
Proof.
  unfold unmatchedTerms. induction (cards w) as [|c cs IH]; [done|].
  intros Hall. rewrite filter_cons, decide_False.
  - apply IH. intros c' Hc'. apply Hall. by right.
  - intros [Hfresh _]. apply Hfresh, Hall. by left.
Qed.

(** While the board is shown and the deck is not empty, some term card is
    still unmatched. *)
Lemma board_has_unmatched_term w :
  (∀ l, NoDup (id <$> VOCABULARY l)) → reachable w →
  isGameStarted (gameState w) = true → isGameOver (gameState w) = false →
  cards w ≠ [] → unmatchedTerms w ≠ [].
Proof.
  intros Hdistinct Hw Hst Hover Hdeck.
  assert (Hsome : ¬ Forall (λ c, vocabId c ∈ matchedPairs (gameState w))
                           (cards w)).
  { rewrite Forall_forall. intros Hall.
    pose proof (proj2 (reachable_over_iff w Hdistinct Hw Hdeck) Hall).
    congruence. }
  apply not_Forall_Exists in Hsome; [|apply _].
  apply Exists_exists in Hsome as (c & Hc & Hfresh). simpl in Hfresh.
  destruct (reachable_dealt w Hw Hst) as (pool & _ & _ & Hperm).
  rewrite Hperm in Hc. apply gameCards_elem in Hc as (item & Hitem & Hmade).
  assert (Hterm : termCard item ∈ unmatchedTerms w).
  { apply list_elem_of_filter. split.
    - split; [|done]. by destruct Hmade as [->| ->].
    - rewrite Hperm. apply gameCards_elem. exists item. split; [done|by left]. }
  intros Hnil. rewrite Hnil in Hterm. by apply elem_of_nil in Hterm.
Qed.

(** X13. The hint button never fails and is silent when there is nothing to
    hint at.  For every world, draw, environment and library [showHint]
    returns normally; and in a reachable world whose deck is empty or whose
    game is over (ids being distinct) it leaves the banner as it is, sends
    no request and logs nothing. *)
Theorem showHint_nothing_to_hint draw env lib w b io :
  (∃ b' io', showHint VOCABULARY draw env lib w b io = (Returns b', io')) ∧
  ((∀ l, NoDup (id <$> VOCABULARY l)) → reachable w →
   cards w = [] ∨ isGameOver (gameState w) = true →
   showHint VOCABULARY draw env lib w b io = (Returns b, io)).
Proof.
  split.
  - unfold showHint. case_decide as Hlen; [by eexists _, _|].
    destruct (lookup_lt_is_Some_2 (unmatchedTerms w)
                (randomIndex draw (length (unmatchedTerms w)))) as [rc ->].
    { unfold randomIndex. apply Nat.mod_upper_bound. done. }
    destruct (snd <$> list_find _ _) as [v|]; [|by eexists _, _].
    unfold mbind, Eff_bind.
    destruct (hint_service_run env lib (entry v) (pos v) io)
      as (text & io' & ->).
    by eexists _, _.
  - intros Hdistinct Hw Hnone.
    assert (Hnil : unmatchedTerms w = []).
    { destruct Hnone as [Hnil|Hover]; [unfold unmatchedTerms; by rewrite Hnil|].
      destruct (decide (cards w = [])) as [Hnil|Hdeck];
        [unfold unmatchedTerms; by rewrite Hnil|].
      apply unmatchedTerms_nil.
      by apply (reachable_over_iff w Hdistinct Hw Hdeck). }
    unfold showHint. by rewrite Hnil.
Qed.

(** X14. While the board is shown with a non-empty deck (ids being
    distinct), the hint button always produces a hint about a word that is
    still in play: the banner ends with the text [Hint: ] followed by what
    [getVocabHint] returned for the entry and part of speech of an item of
    the selected list whose id is on the deck and not matched, the loading
    flag is off again, and one more callback to clear the banner is
    pending. *)
Theorem showHint_hints_at_unmatched_word draw env lib w b io :
  (∀ l, NoDup (id <$> VOCABULARY l)) → reachable w →
  isGameStarted (gameState w) = true → isGameOver (gameState w) = false →
  cards w ≠ [] →
  ∃ v text io',
    v ∈ VOCABULARY (selectedList (gameState w)) ∧
    (id v ∉ matchedPairs (gameState w)) ∧
    id v ∈ vocabId <$> cards w ∧
    GeminiService.getVocabHint env lib (entry v) (pos v) io
      = (Returns text, io') ∧
    showHint VOCABULARY draw env lib w b io
      = (Returns (mkBanner (Some ("Hint: " +:+ text)) false
                           (S (hintTimeouts b))), io').
Proof.
  intros Hdistinct Hw Hst Hover Hdeck.
  pose proof (board_has_unmatched_term w Hdistinct Hw Hst Hover Hdeck) as Hsome.
  unfold showHint.
  rewrite decide_False by (by destruct (unmatchedTerms w)).
  destruct (lookup_lt_is_Some_2 (unmatchedTerms w)
              (randomIndex draw (length (unmatchedTerms w)))) as [rc Hrc].
  { unfold randomIndex. apply Nat.mod_upper_bound.
    by destruct (unmatchedTerms w). }
  rewrite Hrc. apply list_elem_of_lookup_2 in Hrc.
  apply list_elem_of_filter in Hrc as [[Hfresh Hterm] Hin].
  destruct (reachable_dealt w Hw Hst) as (pool & Hsub & _ & Hperm).
  pose proof Hin as Hin'. rewrite Hperm in Hin'.
  apply gameCards_elem in Hin' as (item & Hitem & Hmade).
  assert (Hid : id item = vocabId rc) by (by destruct Hmade as [->| ->]).
  destruct (list_find_elem_of (λ v, id v = vocabId rc)
              (VOCABULARY (selectedList (gameState w))) item)
    as [[i v] Hfind]; [by eapply elem_of_submseteq|done|].
  rewrite Hfind. simpl.
  apply list_find_Some in Hfind as (Hlook & Hv & _).
  destruct (hint_service_run env lib (entry v) (pos v) io)
    as (text & io' & Hrun).
  exists v, text, io'. split; [by eapply list_elem_of_lookup_2|].
  split; [by rewrite Hv|]. split.
  { rewrite Hv. apply list_elem_of_fmap. by exists rc. }
  split; [done|]. unfold mbind, Eff_bind. by rewrite Hrun.
Qed.

(** *** A session can always be finished *)

Lemma run_app es1 es2 w : run (es1 ++ es2) w = run es2 (run es1 w).
Proof. revert w. induction es1 as [|e es1 IH]; intros w; simpl; auto. Qed.

Lemma playable_app es1 es2 w :
  playable VOCABULARY es1 w → playable VOCABULARY es2 (run es1 w) →
  playable VOCABULARY (es1 ++ es2) w.
Proof.
  revert w. induction es1 as [|e es1 IH]; intros w; simpl; [done|].
  intros [He Hes] H2. split; [done|]. by apply IH.
Qed.

Lemma reachable_after es w :
  reachable w → playable VOCABULARY es w → reachable (run es w).
Proof.
  revert w. induction es as [|e es IH]; intros w Hw Hplay; [done|].
  destruct Hplay as [He Hes]. simpl. apply IH; [|done].
  by apply reachable_dispatch.
Qed.

(** Every card of a running session has a partner: another card of the deck
    with the same vocab id. *)
Lemma partner_exists w a ca :
  reachable w → isGameStarted (gameState w) = true →
  card_at (cards w) a = Some ca →
  ∃ b cb, a ≠ b ∧ card_at (cards w) b = Some cb ∧ vocabId cb = vocabId ca.
Proof.
  intros Hw Hst Hca.
  destruct (reachable_dealt w Hw Hst) as (pool & _ & _ & Hperm).
  pose proof Hca as (_ & _ & Hin)%card_at_Some.
  rewrite Hperm in Hin. apply gameCards_elem in Hin as (item & Hitem & Hmade).
  set (m := mode (gameState w)) in *.
  set (cb := match type ca with
             | term => matchCard m item | match_ => termCard item end).
  assert (Hcb : cb ∈ cards w).
  { rewrite Hperm. apply gameCards_elem. exists item. split; [done|].
    unfold cb. destruct Hmade as [->| ->]; simpl; [by right|by left]. }
  apply list_elem_of_lookup in Hcb as [j Hj].
  exists (Z.of_nat j), cb.
  assert (Hat : card_at (cards w) (Z.of_nat j) = Some cb).
  { unfold card_at. rewrite decide_True by lia. by rewrite Nat2Z.id. }
  split; [|split; [done|]].
  - intros ->. rewrite Hat in Hca. injection Hca as Heq.
    unfold cb in Heq. destruct Hmade as [->| ->]; simpl in Heq;
      by apply (f_equal type) in Heq.
  - unfold cb. by destruct Hmade as [->| ->].
Qed.

(** Firing the callback of a matching pair. *)
Lemma fire_match w a b ca cb :
  reachable w → flippedCards w = [a; b] →
  card_at (cards w) a = Some ca → card_at (cards w) b = Some cb →
  vocabId ca = vocabId cb →
  enabled (TimeoutFires 0) w ∧
  let w' := dispatch (TimeoutFires 0) w in
  matchedPairs (gameState w') = matchedPairs (gameState w) ++ [vocabId ca] ∧
  cards w' = cards w ∧
  isGameStarted (gameState w') = isGameStarted (gameState w).
Proof.
  intros Hw Hfl Hca Hcb Heq.
  pose proof (reachable_Inv _ _ w Hw) as HI.
  assert (Hk : (0 < length (timeouts w))%nat).
  { destruct (Inv_shapes w HI) as [[Hno _]|[(x & Hno & _)|(x&y&c&_&->&_)]];
      [congruence|congruence|simpl; lia]. }
  split; [done|]. cbn zeta.
  destruct (resolution_outcome w 0 HI Hk)
    as (a' & b' & c0 & c1 & muted & Hfl' & Hc0 & Hc1 & Hrun).
  rewrite Hfl in Hfl'. injection Hfl' as <- <-.
  assert (c0 = ca) as -> by congruence.
  assert (c1 = cb) as -> by congruence.
  unfold dispatch.
  destruct (commit_core w (world_of (handle (TimeoutFires 0) w)))
    as (-> & -> & _).
  rewrite Hrun, decide_True by done.
  by destruct muted.
Qed.

(** One accepted click keeps the world reachable and on the board. *)
Lemma click_stays w i :
  reachable w → onBoard w →
  reachable (dispatch (CardClick i) w) ∧ onBoard (dispatch (CardClick i) w) ∧
  cards (dispatch (CardClick i) w) = cards w ∧
  gameState (dispatch (CardClick i) w) = gameState w.
Proof.
  intros Hw Hboard.
  split; [by apply reachable_dispatch|].
  rewrite dispatch_click. unfold onBoard.
  by rewrite handleCardClick_gameState, handleCardClick_cards.
Qed.

(** With one card selected, its partner completes a match. *)
Lemma progress_from_one w a :
  reachable w → onBoard w → flippedCards w = [a] →
  ∃ es, playable VOCABULARY es w ∧ Forall in_session es ∧
        length (matchedPairs (gameState (run es w)))
          = S (length (matchedPairs (gameState w))) ∧
        cards (run es w) = cards w ∧
        isGameStarted (gameState (run es w)) = true.
Proof.
  intros Hw Hboard Hfl.
  pose proof (reachable_Inv _ _ w Hw) as HI.
  destruct (inv_flipped w HI a) as (ca & Hca & Hfresh);
    [rewrite Hfl; by apply list_elem_of_singleton|].
  destruct (partner_exists w a ca Hw (proj1 Hboard) Hca)
    as (b & cb & Hab & Hcb & Hsame).
  exists [CardClick b; TimeoutFires 0].
  destruct (click_stays w b Hw Hboard) as (Hw2 & Hboard2 & Hc2 & Hg2).
  assert (Hfl2 : flippedCards (dispatch (CardClick b) w) = [a; b]).
  { rewrite dispatch_click, (click_second w a b ca cb); try done.
    by rewrite Hsame. }
  destruct (fire_match (dispatch (CardClick b) w) a b ca cb Hw2 Hfl2)
    as (Hen & Hm & Hc & Hs); rewrite ?Hc2; try done.
  cbn zeta in Hm, Hc, Hs. simpl.
  split; [done|]. split; [by repeat constructor|].
  rewrite Hm, Hc, Hs, Hg2, Hc2, length_app. simpl.
  split; [lia|]. split; [done|apply Hboard].
Qed.

(** On the board some event sequence always matches one more pair. *)
Lemma progress w :
  (∀ l, NoDup (id <$> VOCABULARY l)) → reachable w → onBoard w →
  cards w ≠ [] →
  ∃ es, playable VOCABULARY es w ∧ Forall in_session es ∧
        length (matchedPairs (gameState (run es w)))
          = S (length (matchedPairs (gameState w))) ∧
        cards (run es w) = cards w ∧
        isGameStarted (gameState (run es w)) = true.
Proof.
  intros Hdistinct Hw Hboard Hdeck.
  assert (Hempty : ∀ w0, reachable w0 → onBoard w0 → cards w0 ≠ [] →
            flippedCards w0 = [] →
            ∃ es, playable VOCABULARY es w0 ∧ Forall in_session es ∧
                  length (matchedPairs (gameState (run es w0)))
                    = S (length (matchedPairs (gameState w0))) ∧
                  cards (run es w0) = cards w0 ∧
                  isGameStarted (gameState (run es w0)) = true).
  { intros w0 Hw0 Hb0 Hd0 Hfl0.
    pose proof (board_has_unmatched_term w0 Hdistinct Hw0 (proj1 Hb0)
                  (proj2 Hb0) Hd0) as Hsome.
    destruct (unmatchedTerms w0) as [|c rest] eqn:Hun; [done|].
    assert (Hc : c ∈ unmatchedTerms w0) by (rewrite Hun; by left).
    apply list_elem_of_filter in Hc as [[Hfresh _] Hin].
    apply list_elem_of_lookup in Hin as [i Hi].
    assert (Hat : card_at (cards w0) (Z.of_nat i) = Some c).
    { unfold card_at. rewrite decide_True by lia. by rewrite Nat2Z.id. }
    destruct (click_stays w0 (Z.of_nat i) Hw0 Hb0) as (Hw1 & Hb1 & Hc1 & Hg1).
    assert (Hfl1 : flippedCards (dispatch (CardClick (Z.of_nat i)) w0)
                   = [Z.of_nat i]).
    { by rewrite dispatch_click, (click_first w0 _ c). }
    destruct (progress_from_one _ _ Hw1 Hb1 Hfl1)
      as (es & Hplay & Hses & Hlen & Hcards & Hst).
    exists (CardClick (Z.of_nat i) :: es). simpl.
    split; [done|]. split; [by constructor|].
    rewrite Hlen, Hcards, Hg1, Hc1. done. }
  pose proof (reachable_Inv _ _ w Hw) as HI.
  destruct (Inv_shapes w HI) as [[Hfl _]|[(a & Hfl & _)|(a&b&cb&Hfl&Hts&Hr)]].
  - by apply Hempty.
  - by apply (progress_from_one w a).
  - destruct Hr as (c0 & c1 & Hc0 & Hc1 & _).
    destruct (decide (vocabId c0 = vocabId c1)) as [Heq|Hne].
    + exists [TimeoutFires 0].
      destruct (fire_match w a b c0 c1 Hw Hfl Hc0 Hc1 Heq)
        as (Hen & Hm & Hc & Hs).
      cbn zeta in Hm, Hc, Hs. simpl.
      split; [done|]. split; [by repeat constructor|].
      rewrite Hm, Hc, Hs, length_app. simpl.
      split; [lia|]. split; [done|apply Hboard].
    + assert (Hk : (0 < length (timeouts w))%nat) by (rewrite Hts; simpl; lia).
      destruct (resolution_outcome w 0 HI Hk)
        as (a' & b' & c0' & c1' & muted & Hfl' & Hc0' & Hc1' & Hrun).
      rewrite Hfl in Hfl'. injection Hfl' as <- <-.
      assert (c0' = c0) as -> by congruence.
      assert (c1' = c1) as -> by congruence.
      rewrite decide_False in Hrun by done.
      set (w1 := dispatch (TimeoutFires 0) w).
      assert (Hw1 : reachable w1) by (by apply reachable_dispatch).
      assert (Hfields : gameState w1 = gameState w ∧ cards w1 = cards w ∧
                        flippedCards w1 = []).
      { unfold w1, dispatch.
        destruct (commit_core w (world_of (handle (TimeoutFires 0) w)))
          as (-> & -> & -> & _).
        rewrite Hrun. by destruct muted. }
      destruct Hfields as (Hg1 & Hcs1 & Hfl1).
      destruct (Hempty w1) as (es & Hplay & Hses & Hlen & Hcards & Hst);
        try done.
      { unfold onBoard. by rewrite Hg1. }
      { by rewrite Hcs1. }
      exists (TimeoutFires 0 :: es). simpl. fold w1.
      split; [done|]. split; [by constructor|].
      rewrite Hlen, Hcards, Hg1, Hcs1. done.
Qed.

(** X18. No session gets stuck.  When the ids of every vocabulary list are
    distinct, from every reachable state in which the board is shown with a
    non-empty deck there is a sequence of clicks and timeouts, each possible
    when its turn comes, that ends the game: the game-over flag is set and
    every card is matched. *)
Theorem session_can_be_finished w :
  (∀ l, NoDup (id <$> VOCABULARY l)) → reachable w → onBoard w →
  cards w ≠ [] →
  ∃ es, playable VOCABULARY es w ∧ Forall in_session es ∧
        isGameOver (gameState (run es w)) = true ∧
        cards (run es w) = cards w ∧
        ∀ c, c ∈ cards w → vocabId c ∈ matchedPairs (gameState (run es w)).
Proof.
  intros Hdistinct Hw Hboard Hdeck.
  remember (length (cards w) - 2 * length (matchedPairs (gameState w)))%nat
    as n eqn:Hn.
  revert w Hw Hboard Hdeck Hn.
  induction (lt_wf n) as [n _ IH]. intros w Hw Hboard Hdeck Hn.
  destruct (progress w Hdistinct Hw Hboard Hdeck)
    as (es & Hplay & Hses & Hlen & Hcards & Hst).
  set (w' := run es w) in *.
  assert (Hw' : reachable w') by (by apply reachable_after).
  assert (Hdeck' : cards w' ≠ []) by (by rewrite Hcards).
  destruct (isGameOver (gameState w')) eqn:Hover.
  - exists es. do 3 (split; [done|]). split; [done|].
    rewrite <- Hcards. by apply (reachable_over_iff w' Hdistinct Hw' Hdeck').
  - pose proof (reachable_Inv _ _ w' Hw') as HI'.
    destruct (reachable_deck_shape w' Hw') as [?|(l & d & Hdealt)]; [done|].
    destruct (dealt_ids _ _ _ _ Hdistinct Hdealt) as (ids & Hnd & Hl & Hids).
    assert (Hsub : matchedPairs (gameState w') ⊆+ ids).
    { apply NoDup_submseteq; [apply HI'|].
      intros v Hv. apply Hids. by apply reachable_matched_in_deck. }
    pose proof (submseteq_length _ _ Hsub) as Hle.
    destruct (IH (length (cards w')
                  - 2 * length (matchedPairs (gameState w')))%nat)
      with (w := w') as (es' & Hplay' & Hses' & Hover' & Hcards' & Hall');
      try done.
    { rewrite Hcards, Hlen in *. lia. }
    exists (es ++ es'). rewrite run_app. fold w'.
    split; [by apply playable_app|]. split; [by apply Forall_app|].
    split; [done|]. split; [by rewrite Hcards', Hcards|].
    intros c Hc. apply Hall'. by rewrite Hcards.
Qed.

(** *** Who the posted rows belong to *)

(** While a session is running the form has been filled in. *)
Lemma reachable_enrolled w :
  reachable w → isGameStarted (gameState w) = true →
  studentName (gameState w) ≠ EmptyString ∧
  studentClass (gameState w) ≠ EmptyString.
Proof.
  induction 1 as [|w e Hw IH Hen]; [done|].
  unfold dispatch.
  destruct (commit_core w (world_of (handle e w))) as (-> & _).
  destruct e; simpl in *; try done;
    try (intros Hst; destruct Hen; congruence);
    try (unfold onSetup in Hen; congruence).
  - intros _. by destruct Hen as (_ & ? & ? & _).
  - by rewrite handleCardClick_gameState.
  - destruct (timeouts w !! k) as [[muted deck newFlipped|muted]|]; simpl;
      try done.
    + destruct (newFlipped !! 0%nat ≫= card_at deck); by destruct muted.
    + by destruct muted.
Qed.

(** The game-over flag is set by a resolution callback of a running
    session, and by nothing else. *)
Lemma over_turns_in_session e w :
  reachable w → enabled e w →
  isGameOver (gameState w) = false →
  isGameOver (gameState (dispatch e w)) = true →
  isGameStarted (gameState (dispatch e w)) = true.
Proof.
  intros Hw Hen Hbefore.
  pose proof (reachable_Inv _ _ w Hw) as HI.
  unfold dispatch.
  destruct (commit_core w (world_of (handle e w))) as (-> & _).
  destruct e; simpl in *; try congruence.
  - by rewrite handleCardClick_gameState, Hbefore.
  - destruct (resolution_outcome w k HI Hen)
      as (a & b & c0 & c1 & muted & Hfl & _ & _ & Hrun).
    simpl in Hrun. rewrite Hrun.
    assert (Hst : isGameStarted (gameState w) = true).
    { destruct (isGameStarted (gameState w)) eqn:Hst; [done|].
      pose proof (inv_rest w HI (or_introl Hst)). congruence. }
    case_decide; destruct muted; simpl; congruence.
Qed.

(** X19. No row is anonymous: in every state reachable through the page
    every row that has been posted carries a non-empty student name and a
    non-empty class. *)
Theorem posted_rows_name_a_student w :
  reachable w →
  ∀ row, row ∈ posted w →
    row_studentName row ≠ EmptyString ∧ row_studentClass row ≠ EmptyString.
Proof.
  induction 1 as [|w e Hw IH Hen]; [by intros row ?%elem_of_nil|].
  pose proof (posted_dispatch VOCABULARY e w) as Hpost. cbn zeta in Hpost.
  destruct (commit_core w (world_of (handle e w))) as (Hg & _).
  fold (dispatch e w) in Hg. rewrite <- Hg in Hpost.
  rewrite Hpost. intros row [Hold|Hnew]%elem_of_app; [by apply IH|].
  case_bool_decide as Hcase; [|by apply elem_of_nil in Hnew].
  apply list_elem_of_singleton in Hnew as ->.
  destruct Hcase as (Hbefore & Hafter & _).
  apply (reachable_enrolled (dispatch e w)).
  - by apply reachable_dispatch.
  - by apply over_turns_in_session.
Qed.

End AppMore.

(** ** The sound hook *)

Lemma played_prefix br cs : played br cs `prefix_of` cs.
Proof.
  induction cs as [|c cs IH]; simpl; [done|].
  destruct (blocked br c); [apply prefix_nil|by apply prefix_cons].
Qed.

Lemma played_all br cs :
  played br cs = cs ↔ ∀ c, c ∈ cs → blocked br c = false.
Proof.
  induction cs as [|c cs IH]; simpl.
  - split; [by intros _ c ?%elem_of_nil|done].
  - destruct (blocked br c) eqn:Hc; split.
    + done.
    + intros Hall. rewrite Hall in Hc; [done|by left].
    + intros [= Heq] c' [->|Hc']%elem_of_cons; [done|]. by apply IH.
    + intros Hall. f_equal. apply IH. intros c' Hc'. apply Hall. by right.
Qed.

Lemma playSound_run br t h :
  playSound br t h =
  (Returns (),
   match audioCtx h with
   | None => h
   | Some st =>
     let made := played br (script st t) in
     mkAudioHook (Some st) (calls h ++ made)
       (if decide (length made = length (script st t)) then warnings h
        else warnings h ++ ["Audio play blocked/failed:"])
       (laterTones h)
   end).
Proof.
  unfold playSound, sndTryCatch.
  destruct h as [[st|] cs ws ls]; simpl; [|done].
  unfold mbind, Snd_bind, call, snd_warn, script.
  destruct st; simpl;
    repeat (match goal with
            | |- context [blocked br ?c] =>
                destruct (blocked br c); simpl;
                [try (by rewrite app_nil_r)|]
            end);
    rewrite <- ?app_assoc; done.
Qed.

(** X15. [playSound] never throws, whatever the browser does.  Without an
    audio context it does nothing at all.  With one it makes the calls of
    the tone in the order of the source up to the first call that throws,
    and logs one warning exactly when a call threw; it leaves the context
    and the scheduled tones as they are. *)
Theorem playSound_never_throws br t h :
  playSound br t h =
  (Returns (),
   match audioCtx h with
   | None => h
   | Some st =>
     let made := played br (script st t) in
     mkAudioHook (Some st) (calls h ++ made)
       (if decide (length made = length (script st t)) then warnings h
        else warnings h ++ ["Audio play blocked/failed:"])
       (laterTones h)
   end) ∧
  ∀ st, audioCtx h = Some st →
    played br (script st t) `prefix_of` script st t ∧
    (length (played br (script st t)) = length (script st t) ↔
     ∀ c, c ∈ script st t → blocked br c = false).
Proof.
  split; [apply playSound_run|].
  intros st _. split; [apply played_prefix|].
  rewrite <- played_all. split; [|by intros ->].
  intros Hlen. destruct (played_prefix br (script st t)) as [k Hk].
  pose proof (f_equal length Hk) as Hl. rewrite length_app in Hl.
  destruct k; [by rewrite app_nil_r in Hk|simpl in Hl; lia].
Qed.

(** X16. [initAudio] creates the context once: run a second time, even in
    a browser whose constructor now throws, it changes nothing.  After it a
    tone that nothing blocks is played in full, and (no other tone being
    scheduled) a match is two tones: the 600 Hz one at once, the 800 Hz one
    when its timeout fires.  Each tone reads the state of the context anew:
    it is preceded by [resume()] exactly when the context is suspended at
    that moment, so a context that the browser has let run in between gets
    one [resume()], one that is still suspended gets two. *)
Theorem initAudio_then_sounds br br' h h' :
  initAudio br h = (Returns (), h') →
  (∀ c, blocked br' c = false) →
  initAudio br' h' = (Returns (), h') ∧
  ∃ st, audioCtx h' = Some st ∧
    (∀ t, playSound br' t h'
          = (Returns (), mkAudioHook (Some st) (calls h' ++ script st t)
                                     (warnings h') (laterTones h'))) ∧
    (laterTones h' = [] → ∀ now later,
     (contextStateChanges now;; playMatch br';;
      contextStateChanges later;; laterToneFires br') h'
     = (Returns (),
        mkAudioHook (Some later)
          (calls h' ++ script now matchTone1 ++ script later matchTone2)
          (warnings h') [])) ∧
    (∀ now later,
       resumes (script now matchTone1 ++ script later matchTone2)
       = ((match now with suspended => 1 | running => 0 end) +
          (match later with suspended => 1 | running => 0 end))%nat).
Proof.
  intros Hinit Hfree.
  assert (Hctx : ∃ st, audioCtx h' = Some st).
  { unfold initAudio in Hinit. destruct (audioCtx h) as [st|] eqn:Hh.
    - injection Hinit as <-. by exists st.
    - destruct (newAudioContext br) as [st|err]; [|done].
      injection Hinit as <-. by exists st. }
  destruct Hctx as [st Hst].
  split; [unfold initAudio; by rewrite Hst|].
  exists st. split; [done|].
  assert (Hplay : ∀ t k now, audioCtx k = Some now →
            playSound br' t k
            = (Returns (), mkAudioHook (Some now) (calls k ++ script now t)
                                       (warnings k) (laterTones k))).
  { intros t k now Hk.
    rewrite (playSound_run br' t k), Hk.
    cbn zeta.
    assert (played br' (script now t) = script now t) as ->
      by (apply played_all; intros c _; apply Hfree).
    by rewrite decide_True. }
  split; [intros t; by apply Hplay|]. split.
  - intros Hlater now later.
    unfold playMatch, laterToneFires, playLater, contextStateChanges,
      mbind, Snd_bind.
    rewrite Hst. rewrite (Hplay matchTone1 _ now) by done. simpl.
    rewrite Hlater. simpl.
    rewrite (Hplay matchTone2 _ later) by done. simpl.
    by rewrite <- app_assoc.
  - intros now later. by destruct now, later.
Qed.

(** ** The claims at sample inputs *)

Lemma fair_keep {A} : fair (@keep A).
Proof. intros l. reflexivity. Qed.

Lemma reachable_run VOCABULARY ListA es w :
  reachable VOCABULARY ListA w → playable VOCABULARY es w →
  reachable VOCABULARY ListA (run VOCABULARY es w).
Proof.
  revert w. induction es as [|e es IH]; intros w Hw Hes; [done|].
  destruct Hes as [Hen Hes]. simpl. apply IH; [|done].
  by apply reachable_dispatch.
Qed.

Lemma truthy_nonempty s : truthy s = true → s ≠ EmptyString.
Proof. by destruct s. Qed.

Lemma enabledb_sound e w : enabledb e w = true → fair_event e → enabled e w.
Proof.
  unfold enabledb, enabled, onSetup, onBoard, onResult.
  destruct e; simpl; intros Hb Hfair;
    repeat match goal with
           | H : _ && _ = true |- _ => apply andb_true_iff in H as [? ?]
           | H : negb _ = true |- _ => apply negb_true_iff in H
           | H : bool_decide _ = true |- _ => apply bool_decide_eq_true in H
           end;
    try done.
  - destruct Hfair. repeat split; try done; by apply truthy_nonempty.
  - intros [Hs Ho]. rewrite Hs, Ho in Hb. done.
Qed.

Lemma playableb_sound VOCABULARY es w :
  playableb VOCABULARY es w = true → Forall fair_event es →
  playable VOCABULARY es w.
Proof.
  revert w. induction es as [|e es IH]; intros w Hb Hfair; [done|].
  simpl in Hb. apply andb_true_iff in Hb as [He Hes].
  apply Forall_cons in Hfair as [Hfe Hfes].
  split; [by apply enabledb_sound|by apply IH].
Qed.

(** [w] is the world that [es] lead to from [w0]; the run is evaluated. *)
Lemma reachable_by VOCABULARY ListA es w0 w :
  reachable VOCABULARY ListA w0 →
  playableb VOCABULARY es w0 = true → Forall fair_event es →
  run VOCABULARY es w0 = w →
  reachable VOCABULARY ListA w.
Proof.
  intros Hw0 Hb Hfair <-. apply reachable_run; [done|].
  by apply playableb_sound.
Qed.

Ltac fair_events :=
  repeat (constructor; try exact I; try (split; apply fair_keep)).

Lemma reachable_pairTurned : reachable twoWords "A" pairTurned.
Proof.
  apply (reachable_by _ _ pairTurned_events (initialWorld "A"));
    [apply reachable_mount|by vm_compute|fair_events|by vm_compute].
Qed.

Lemma reachable_midGame : reachable twoWords "A" midGame.
Proof.
  apply (reachable_by _ _ midGame_events pairTurned);
    [apply reachable_pairTurned|by vm_compute|fair_events|by vm_compute].
Qed.

Lemma reachable_emptySession : reachable noWords "A" emptySession.
Proof.
  apply (reachable_by _ _ (enrol ++ [start]) (initialWorld "A"));
    [apply reachable_mount|by vm_compute|fair_events|by vm_compute].
Qed.

Lemma reachable_finished : reachable oneWord "A" finished.
Proof.
  apply (reachable_by _ _ firstSession (initialWorld "A"));
    [apply reachable_mount|by vm_compute|fair_events|by vm_compute].
Qed.

Lemma reachable_beforeSecondEnd : reachable oneWord "A" beforeSecondEnd.
Proof.
  apply (reachable_by _ _ (firstSession ++ secondSession) (initialWorld "A"));
    [apply reachable_mount|by vm_compute|fair_events|by vm_compute].
Qed.

Example midGame_view :
  game_view midGame =
  (10, 0, ["v1"], [2], cards pairTurned, false).
Proof. vm_compute. reflexivity. Qed.

Example pairTurned_pending :
  timeouts pairTurned = [MatchResolution false (cards pairTurned) [0; 1]].
Proof. vm_compute. reflexivity. Qed.

Lemma score_tracks_matches_witness :
  reachable twoWords "A" pairTurned ∧
  let g := gameState pairTurned in
  let g' := gameState (dispatch twoWords (TimeoutFires 0) pairTurned) in
  score g = 10 * Z.of_nat (length (matchedPairs g)) ∧
  matchedPairs g `prefix_of` matchedPairs g' ∧
  score g ≤ score g'.
Proof.
  split; [apply reachable_pairTurned|].
  destruct (score_tracks_matches twoWords "A" pairTurned reachable_pairTurned)
    as (Hscore & _ & Hstep).
  destruct (Hstep (TimeoutFires 0)) as (Hprefix & Hle & _);
    [simpl; lia|exact I|].
  split; [exact Hscore|]. split; [exact Hprefix|exact Hle].
Defined.

Lemma over_iff_all_matched_witness :
  reachable oneWord "A" finished ∧ cards finished ≠ [] ∧
  isGameOver (gameState finished) = true ∧
  (isGameOver (gameState finished) = true ↔
   (length (matchedPairs (gameState finished)) * 2)%nat = length (cards finished)).
Proof.
  split; [apply reachable_finished|]. split; [discriminate|].
  split; [reflexivity|].
  apply (over_iff_all_matched oneWord "A" finished reachable_finished).
  discriminate.
Defined.

(** C2 fails on an empty vocabulary list: the session is started, nothing is
    left to match, and the flag stays false. *)
Lemma empty_deck_never_over :
  reachable noWords "A" emptySession ∧
  isGameStarted (gameState emptySession) = true ∧
  ¬ (isGameOver (gameState emptySession) = true ↔
     (length (matchedPairs (gameState emptySession)) * 2)%nat
       = length (cards emptySession)).
Proof.
  split; [apply reachable_emptySession|]. split; [reflexivity|].
  intros [_ Hover]. specialize (Hover eq_refl). discriminate Hover.
Qed.

Lemma handleCardClick_ignored_witness :
  (length (flippedCards pairTurned) = 2%nat ∧
   handleCardClick 3 pairTurned = Done pairTurned) ∧
  (2 ∈ flippedCards midGame ∧ handleCardClick 2 midGame = Done midGame) ∧
  (card_at (cards midGame) 0 = Some (termCard cat) ∧
   handleCardClick 0 midGame = Done midGame).
Proof.
  split; [|split].
  - split; [reflexivity|].
    apply (handleCardClick_ignored twoWords 3 pairTurned). by left.
  - split; [by apply list_elem_of_singleton|].
    apply (handleCardClick_ignored twoWords 2 midGame).
    right; left. by apply list_elem_of_singleton.
  - split; [reflexivity|].
    apply (handleCardClick_ignored twoWords 0 midGame).
    right; right. exists (termCard cat). split; [reflexivity|].
    by apply list_elem_of_singleton.
Defined.


Lemma handleCardClick_safety_witness :
  faulted (handleCardClick 3 midGame) = false ∧
  handleCardClick 4 midGame = TypeError midGame ∧
  handleCardClick (-1) midGame = TypeError midGame.
Proof.
  split; [|split].
  - apply (proj1 (handleCardClick_safety twoWords "A" midGame 3));
      [apply reachable_midGame|simpl; lia].
  - apply (proj2 (handleCardClick_safety twoWords "A" midGame 4));
      [simpl; lia|simpl; lia|].
    intros Hin. apply list_elem_of_singleton in Hin. discriminate Hin.
  - apply (proj2 (handleCardClick_safety twoWords "A" midGame (-1)));
      [simpl; lia|simpl; lia|].
    intros Hin. apply list_elem_of_singleton in Hin. discriminate Hin.
Defined.

Lemma mute_noninterference_witness :
  silent midGame = silent midGameMuted ∧
  Forall2 (λ a b, game_view a = game_view b ∧ silent a = silent b ∧
                  (∀ e, enabled e a ↔ enabled e b) ∧
                  (∀ e, faulted (handle twoWords e a)
                        = faulted (handle twoWords e b)))
          (trace twoWords [CardClick 3; TimeoutFires 0; ToggleMute] midGame)
          (trace twoWords [CardClick 3; TimeoutFires 0; ToggleMute] midGameMuted).
Proof.
  split; [reflexivity|].
  apply (mute_noninterference twoWords). reflexivity.
Defined.

Example mute_changes_sounds_only :
  audio (run twoWords [CardClick 3; TimeoutFires 0] midGame)
    = audio midGame ++ [FlipSound; MatchSound] ∧
  audio (run twoWords [CardClick 3; TimeoutFires 0] midGameMuted)
    = audio midGame.
Proof. split; vm_compute; reflexivity. Qed.

Lemma buildDeck_shape_witness :
  fair (@keep VocabItem) ∧ fair (@keep CardData) ∧
  NoDup (id <$> [cat; dog]) ∧
  length (buildDeck keep keep [cat; dog] Difficulty_Easy EnglishToArabic)
    = (2 * (wordCount Difficulty_Easy `min` 2))%nat.
Proof.
  assert (Hnd : NoDup (id <$> [cat; dog])).
  { apply (bool_decide_unpack _). reflexivity. }
  split; [apply fair_keep|]. split; [apply fair_keep|]. split; [exact Hnd|].
  apply (buildDeck_shape keep keep [cat; dog] Difficulty_Easy EnglishToArabic
           fair_keep fair_keep Hnd).
Defined.

Example easy_deck_of_ten :
  let deck := buildDeck reverse reverse tenWords Difficulty_Easy EnglishToArabic in
  length deck = 20%nat ∧
  remove_dups (vocabId <$> deck) = id <$> tenWords ∧
  Forall (λ v, occurrences v deck = 2%nat) (id <$> tenWords).
Proof.
  cbn zeta. split; [by vm_compute|]. split; [by vm_compute|].
  apply (bool_decide_unpack _). by vm_compute.
Qed.

(** C6 fails.  After a first session whose POST is still in flight the
    learner goes back to the form and starts again; [initGame] sets the
    status to idle, then the first POST succeeds and sets it to success.  When
    the last pair of the second session is matched the game-over flag turns
    true, the effect calls [submitResultToSheet], the guard sees success, and
    nothing is posted: the two finished sessions have produced one row. *)
Theorem second_session_not_submitted :
  reachable oneWord "A" beforeSecondEnd ∧
  enabled (TimeoutFires 0) beforeSecondEnd ∧
  submitStatus beforeSecondEnd = success ∧
  isGameOver (gameState beforeSecondEnd) = false ∧
  isGameOver (gameState (dispatch oneWord (TimeoutFires 0) beforeSecondEnd))
    = true ∧
  posted (dispatch oneWord (TimeoutFires 0) beforeSecondEnd)
    = posted beforeSecondEnd ∧
  length (posted beforeSecondEnd) = 1%nat.
Proof.
  split; [apply reachable_beforeSecondEnd|].
  split; [vm_compute; lia|]. repeat split; vm_compute; reflexivity.
Qed.

(** The hint service at sample inputs: a sentence, no text, a rejected
    request, a throwing constructor, no key. *)
Example hint_answered :
  fst (GeminiService.getVocabHint withKey answering "cat" "noun" quiet)
    = Returns "The cat sleeps on the mat.".
Proof. vm_compute. reflexivity. Qed.

Example hint_without_text :
  fst (GeminiService.getVocabHint withKey speechless "cat" "noun" quiet)
    = Returns "Match the terms to learn more.".
Proof. vm_compute. reflexivity. Qed.

Example hint_offline :
  GeminiService.getVocabHint withKey offline "cat" "noun" quiet
    = (Returns "Try matching the terms!",
       mkIo [mkRequest "k-123" "gemini-3-flash-preview" (prompt "cat" "noun") 0]
            [Error "Gemini Hint Error:" "503"]) ∧
  fst (GeminiServiceIndex.getVocabHint withKey offline "cat" "noun" quiet)
    = Returns "Keep matching! You are doing great!".
Proof. split; vm_compute; reflexivity. Qed.

Example hint_broken_library :
  GeminiService.getVocabHint withKey broken "cat" "noun" quiet
    = (Returns "Try matching the terms!",
       mkIo [] [Error "Gemini Hint Error:" "bad key"]).
Proof. vm_compute. reflexivity. Qed.

Example hint_without_key :
  GeminiService.getVocabHint noKey answering "cat" "noun" quiet
    = (Returns "Complete the match to learn this word!",
       mkIo [] [Warn "API_KEY missing. Hints are disabled."]) ∧
  GeminiServiceIndex.getVocabHint (mkEnv (Some EmptyString) None) answering
                                  "cat" "noun" quiet
    = (Returns "Complete the match to learn this word!",
       mkIo [] [Warn "Gemini API Key is not configured. Hints are disabled."]).
Proof. split; vm_compute; reflexivity. Qed.

(** ** The further properties at sample inputs *)

Lemma distinct_twoWords l : NoDup (id <$> twoWords l).
Proof. apply (bool_decide_unpack _). by vm_compute. Qed.

Lemma distinct_oneWord l : NoDup (id <$> oneWord l).
Proof. apply (bool_decide_unpack _). by vm_compute. Qed.

Lemma reachable_justStarted : reachable twoWords "A" justStarted.
Proof.
  apply (reachable_by _ _ (enrol ++ [start]) (initialWorld "A"));
    [apply reachable_mount|by vm_compute|fair_events|by vm_compute].
Qed.

Lemma reachable_lastPairTurned : reachable oneWord "A" lastPairTurned.
Proof.
  apply (reachable_by _ _ lastPairTurned_events (initialWorld "A"));
    [apply reachable_mount|by vm_compute|fair_events|by vm_compute].
Qed.

Lemma selection_wellformed_witness :
  reachable twoWords "A" pairTurned ∧
  (length (flippedCards pairTurned) ≤ 2)%nat ∧
  NoDup (flippedCards pairTurned) ∧
  (length (timeouts pairTurned) ≤ 1)%nat.
Proof.
  split; [apply reachable_pairTurned|].
  destruct (selection_wellformed twoWords "A" pairTurned reachable_pairTurned)
    as (Hlen & Hnd & _ & Hts & _).
  split; [exact Hlen|]. split; [exact Hnd|exact Hts].
Defined.

Lemma matched_in_deck_witness :
  reachable twoWords "A" midGame ∧
  ∀ v, v ∈ matchedPairs (gameState midGame) → v ∈ vocabId <$> cards midGame.
Proof.
  split; [apply reachable_midGame|].
  exact (proj1 (matched_in_deck twoWords "A" midGame reachable_midGame)).
Defined.

Lemma over_iff_no_card_left_witness :
  (∀ l, NoDup (id <$> oneWord l)) ∧ reachable oneWord "A" finished ∧
  cards finished ≠ [] ∧ isGameOver (gameState finished) = true ∧
  score (gameState finished) = 5 * Z.of_nat (length (cards finished)).
Proof.
  split; [exact distinct_oneWord|]. split; [apply reachable_finished|].
  split; [discriminate|]. split; [reflexivity|].
  apply (over_iff_no_card_left oneWord "A" finished distinct_oneWord
           reachable_finished); [discriminate|reflexivity].
Defined.

Lemma deck_comes_from_selected_list_witness :
  reachable twoWords "A" midGame ∧
  isGameStarted (gameState midGame) = true ∧
  mode (gameState midGame) = EnglishToArabic ∧
  length (cards midGame) = 4%nat.
Proof.
  split; [apply reachable_midGame|]. split; [reflexivity|].
  destruct (deck_comes_from_selected_list twoWords "A" midGame
              reachable_midGame eq_refl) as (Hmode & Hlen & _).
  split; [exact Hmode|exact Hlen].
Defined.

Lemma timer_counts_ticks_witness :
  Forall in_session [Tick; CardClick 0; Tick; ToggleMute; Tick] ∧
  timer (gameState (run twoWords [Tick; CardClick 3; Tick; ToggleMute] midGame))
  = timer (gameState midGame) + 2 ∧
  timer (gameState secondRound) = 2 ∧
  timer (gameState
           (run oneWord [Tick; CardClick 0; Tick; ToggleMute; Tick]
                (dispatchStart oneWord willing keep keep secondRound
                               noSound).1)) = 3 ∧
  dispatchStart oneWord unwilling keep keep enrolled noSound
  = (enrolled, noSound).
Proof.
  assert (Hes : Forall in_session [Tick; CardClick 0; Tick; ToggleMute; Tick])
    by (repeat constructor).
  assert (Hes' : Forall in_session [Tick; CardClick 3; Tick; ToggleMute])
    by (repeat constructor).
  split; [exact Hes|].
  split; [exact (proj1 (timer_counts_ticks twoWords _ midGame Hes'))|].
  split; [reflexivity|].
  destruct (timer_counts_ticks oneWord _ secondRound Hes) as [_ Hstart].
  destruct (timer_counts_ticks oneWord _ enrolled Hes) as [_ Hthrow].
  split.
  - apply (Hstart willing keep keep noSound).
    right. by exists suspended.
  - apply (Hthrow unwilling keep keep noSound); [reflexivity|].
    by exists "NotSupportedError".
Defined.

Lemma mismatch_round_trip_witness :
  card_at (cards justStarted) 0 = Some (termCard cat) ∧
  card_at (cards justStarted) 2 = Some (termCard dog) ∧
  silent (run twoWords [CardClick 0; CardClick 2; TimeoutFires 0] justStarted)
  = silent justStarted.
Proof.
  split; [reflexivity|]. split; [reflexivity|].
  refine (proj1 (proj2 (proj2
    (mismatch_round_trip twoWords justStarted 0 2 (termCard cat) (termCard dog)
       eq_refl eq_refl eq_refl eq_refl _ _ _ _)))).
  - discriminate.
  - by intros ?%elem_of_nil.
  - by intros ?%elem_of_nil.
  - discriminate.
Defined.

Lemma match_turn_witness :
  card_at (cards justStarted) 0 = Some (termCard cat) ∧
  card_at (cards justStarted) 1 = Some (matchCard EnglishToArabic cat) ∧
  score (gameState
           (run twoWords [CardClick 0; CardClick 1; TimeoutFires 0] justStarted))
  = score (gameState justStarted) + 10.
Proof.
  split; [reflexivity|]. split; [reflexivity|].
  refine (proj1 (proj2
    (match_turn twoWords justStarted 0 1 (termCard cat)
       (matchCard EnglishToArabic cat)
       eq_refl eq_refl eq_refl eq_refl _ _ eq_refl))).
  - discriminate.
  - by intros ?%elem_of_nil.
Defined.

Lemma uniqueIds_distinct_witness :
  (∀ l, NoDup (id <$> twoWords l)) ∧ reachable twoWords "A" midGame ∧
  NoDup (uniqueId <$> cards midGame).
Proof.
  split; [exact distinct_twoWords|]. split; [apply reachable_midGame|].
  exact (uniqueIds_distinct twoWords "A" midGame distinct_twoWords
           reachable_midGame).
Defined.

Lemma submitting_has_request_in_flight_witness :
  reachable oneWord "A" finished ∧ submitStatus finished = submitting ∧
  (0 < fetches finished)%nat.
Proof.
  split; [apply reachable_finished|]. split; [reflexivity|].
  exact (proj1 (submitting_has_request_in_flight oneWord "A" finished
                  reachable_finished) eq_refl).
Defined.

Lemma posted_row_is_final_state_witness :
  reachable oneWord "A" lastPairTurned ∧
  enabled (TimeoutFires 0) lastPairTurned ∧
  (posted (dispatch oneWord (TimeoutFires 0) lastPairTurned)
     = posted lastPairTurned ∨
   (isGameOver (gameState lastPairTurned) = false ∧
    isGameOver (gameState (dispatch oneWord (TimeoutFires 0) lastPairTurned))
      = true ∧
    posted (dispatch oneWord (TimeoutFires 0) lastPairTurned)
      = posted lastPairTurned
        ++ [resultRow (gameState (dispatch oneWord (TimeoutFires 0)
                                           lastPairTurned))] ∧
    submitStatus (dispatch oneWord (TimeoutFires 0) lastPairTurned)
      = submitting ∧
    score (gameState (dispatch oneWord (TimeoutFires 0) lastPairTurned))
      = 5 * Z.of_nat (length (cards (dispatch oneWord (TimeoutFires 0)
                                              lastPairTurned))))).
Proof.
  assert (Hen : enabled (TimeoutFires 0) lastPairTurned) by (simpl; lia).
  split; [apply reachable_lastPairTurned|]. split; [exact Hen|].
  exact (posted_row_is_final_state oneWord "A" (TimeoutFires 0) lastPairTurned
           reachable_lastPairTurned Hen).
Defined.

Example last_pair_posts_the_row :
  posted (dispatch oneWord (TimeoutFires 0) lastPairTurned)
  = [mkResultRow "Sim" "B3" 10 0 "A" "Easy" EnglishToArabic].
Proof. vm_compute. reflexivity. Qed.

Lemma showHint_hints_at_unmatched_word_witness :
  (∀ l, NoDup (id <$> twoWords l)) ∧ reachable twoWords "A" midGame ∧
  isGameStarted (gameState midGame) = true ∧
  isGameOver (gameState midGame) = false ∧ cards midGame ≠ [] ∧
  ∃ v text io',
    v ∈ twoWords (selectedList (gameState midGame)) ∧
    (id v ∉ matchedPairs (gameState midGame)) ∧
    id v ∈ vocabId <$> cards midGame ∧
    GeminiService.getVocabHint withKey answering (entry v) (pos v) quiet
      = (Returns text, io') ∧
    showHint twoWords 7 withKey answering midGame noBanner quiet
      = (Returns (mkBanner (Some ("Hint: " +:+ text)) false
                           (S (hintTimeouts noBanner))), io').
Proof.
  split; [exact distinct_twoWords|]. split; [apply reachable_midGame|].
  split; [reflexivity|]. split; [reflexivity|]. split; [discriminate|].
  apply (showHint_hints_at_unmatched_word twoWords "A" 7 withKey answering
           midGame noBanner quiet distinct_twoWords reachable_midGame);
    [reflexivity|reflexivity|discriminate].
Defined.

Example hint_in_midGame :
  showHint twoWords 7 withKey answering midGame noBanner quiet
  = (Returns (mkBanner (Some "Hint: The cat sleeps on the mat.") false 1),
     mkIo [mkRequest "k-123" "gemini-3-flash-preview" (prompt "dog" "noun") 0]
          []).
Proof. vm_compute. reflexivity. Qed.

Example no_hint_when_finished :
  showHint oneWord 7 withKey answering finished noBanner quiet
  = (Returns noBanner, quiet).
Proof. vm_compute. reflexivity. Qed.

Lemma initAudio_then_sounds_witness :
  initAudio willing noSound
    = (Returns (), mkAudioHook (Some suspended) [] [] []) ∧
  (∀ c, blocked unwilling c = false) ∧
  initAudio unwilling (mkAudioHook (Some suspended) [] [] [])
    = (Returns (), mkAudioHook (Some suspended) [] [] []).
Proof.
  split; [reflexivity|]. split; [reflexivity|].
  exact (proj1 (initAudio_then_sounds willing unwilling noSound
                  (mkAudioHook (Some suspended) [] [] []) eq_refl
                  (λ _, eq_refl))).
Defined.

(** A match in a browser that honours the [resume()] of the first tone: the
    second tone finds the context running and does not resume it again. *)
Example playMatch_resumes_once :
  (initAudio willing;; playMatch willing;; contextStateChanges running;;
   laterToneFires willing) noSound
  = (Returns (),
     mkAudioHook (Some running)
       ([resume] ++ script running matchTone1 ++ script running matchTone2)
       [] []).
Proof. reflexivity. Qed.

Example playSound_before_initAudio :
  playFlip halting noSound = (Returns (), noSound).
Proof. reflexivity. Qed.

Example playSound_blocked_at_start :
  playError halting (mkAudioHook (Some running) [] [] [])
  = (Returns (),
     mkAudioHook (Some running)
       [createOscillator; createGain; set_type triangle;
        frequency_setValueAtTime (dec 150 0);
        gain_setValueAtTime (dec 1 (-1));
        gain_exponentialRampToValueAtTime (dec 1 (-4)) (dec 3 (-1));
        osc_connect_gain; gain_connect_destination]
       ["Audio play blocked/failed:"] []).
Proof. reflexivity. Qed.

Lemma copies_agree_witness :
  GeminiService.lookupKey withKey = GeminiServiceIndex.lookupKey withKey ∧
  requests (snd (GeminiService.getVocabHint withKey offline "cat" "noun" quiet))
  = requests (snd (GeminiServiceIndex.getVocabHint withKey offline
                                                   "cat" "noun" quiet)).
Proof.
  split; [reflexivity|].
  exact (proj1 (copies_agree withKey offline "cat" "noun" quiet eq_refl)).
Defined.

Lemma session_can_be_finished_witness :
  (∀ l, NoDup (id <$> twoWords l)) ∧ reachable twoWords "A" midGame ∧
  onBoard midGame ∧ cards midGame ≠ [] ∧
  ∃ es, playable twoWords es midGame ∧ Forall in_session es ∧
        isGameOver (gameState (run twoWords es midGame)) = true ∧
        cards (run twoWords es midGame) = cards midGame ∧
        ∀ c, c ∈ cards midGame →
             vocabId c ∈ matchedPairs (gameState (run twoWords es midGame)).
Proof.
  assert (Hboard : onBoard midGame) by (split; reflexivity).
  assert (Hdeck : cards midGame ≠ []) by discriminate.
  split; [exact distinct_twoWords|]. split; [apply reachable_midGame|].
  split; [exact Hboard|]. split; [exact Hdeck|].
  exact (session_can_be_finished twoWords "A" midGame distinct_twoWords
           reachable_midGame Hboard Hdeck).
Defined.

Example midGame_finished_in_two_events :
  isGameOver (gameState (run twoWords [CardClick 3; TimeoutFires 0] midGame))
  = true.
Proof. vm_compute. reflexivity. Qed.

Lemma posted_rows_name_a_student_witness :
  reachable oneWord "A" finished ∧
  ∀ row, row ∈ posted finished →
    row_studentName row ≠ EmptyString ∧ row_studentClass row ≠ EmptyString.
Proof.
  split; [apply reachable_finished|].
  exact (posted_rows_name_a_student oneWord "A" finished reachable_finished).
Defined.
